(** * Incremental indexing engine of aws-rag ([populate_database.py])

    A shallow embedding of the ingestion pipeline: identity assignment
    ([generate_documents_with_metadata]), parent/child splitting
    ([split_documents]), batching ([chunk_list]), the store diff
    ([get_documents_to_add_or_update]), the batched writer
    ([add_or_update_documents_to_vectorstore], [add_documents_to_store]),
    the file-digest cache ([get_document_hash_from_store],
    [add_document_hash]) and the per-file loop of [main], together with
    the key-value store of [utils/get_sqlitestore.py]. *)

From Stdlib Require Import Ascii String.
From stdpp Require Import gmap strings list pretty.

(** ** Documents

    A langchain [Document] is a text ([page_content]) and a metadata
    dictionary.  The pipeline reads and writes five metadata keys only;
    an absent key and a key bound to [None] are both [None] here, as
    every read goes through [metadata.get] or is followed by a test for
    [None]. *)

Record Document := mkDocument {
  page_content : string;
  md_source : option string;   (* metadata.get("source") *)
  md_page : option Z;          (* metadata.get("page") *)
  md_id : option string;       (* metadata["id"] *)
  md_hash : option string;     (* metadata["hash"] *)
  md_parent : option string    (* metadata[PARENT_DOC_ID] *)
}.

Global Instance Document_eq_dec : EqDecision Document.
Proof. solve_decision. Defined.

(** [document.metadata[key] = value] for the three keys the pipeline
    assigns. *)
Definition set_id (v : string) (d : Document) : Document :=
  mkDocument (page_content d) (md_source d) (md_page d) (Some v)
             (md_hash d) (md_parent d).

Definition set_hash (v : string) (d : Document) : Document :=
  mkDocument (page_content d) (md_source d) (md_page d) (md_id d)
             (Some v) (md_parent d).

(** Modelled from the spec: the constant [PARENT_DOC_ID] is imported from
    [env], which is not among the sources; the spec names the key
    [parent_id], a key of its own next to [id] and [hash].  The value
    stored is [document.metadata.get("id")], hence an option. *)
Definition set_parent (v : option string) (d : Document) : Document :=
  mkDocument (page_content d) (md_source d) (md_page d) (md_id d)
             (md_hash d) v.

Definition set_content (t : string) (d : Document) : Document :=
  mkDocument t (md_source d) (md_page d) (md_id d) (md_hash d) (md_parent d).

(** ** String formatting *)

(** [f"{source}"]: an absent source prints as the text [None]. *)
Definition fmt_source (source : option string) : string :=
  match source with
  | Some s => s
  | None => "None"
  end.

(** [page or 0]: [None] and [0] are both falsy. *)
Definition page_or_0 (page : option Z) : Z :=
  match page with
  | Some p => if decide (p = 0%Z) then 0%Z else p
  | None => 0%Z
  end.

(** No character of [s] is a colon. *)
Fixpoint colon_free (s : string) : bool :=
  match s with
  | EmptyString => true
  | String c r => if decide (c = ":"%char) then false else colon_free r
  end.

(** ** Python helpers *)

(** Truth value of a list: empty is falsy. *)
Definition truthy {A} (l : list A) : bool :=
  match l with
  | [] => false
  | _ :: _ => true
  end.

(** [range(0, stop, step)] for [step >= 1], as CPython computes it: the
    number of items is [ceil(stop / step)] and item [k] is [k * step]. *)
Definition py_range (stop step : nat) : list nat :=
  (λ k, k * step) <$> seq 0 ((stop + step - 1) `div` step).

(** [str.lower] on the ASCII letters. *)
Definition ascii_lower (c : ascii) : ascii :=
  let n := nat_of_ascii c in
  if decide (65 ≤ n ∧ n ≤ 90) then ascii_of_nat (n + 32) else c.

Fixpoint lower (s : string) : string :=
  match s with
  | EmptyString => EmptyString
  | String c r => String (ascii_lower c) (lower r)
  end.

Definition endswith (s suffix : string) : bool :=
  let n := String.length s in
  let k := String.length suffix in
  if decide (k ≤ n) then bool_decide (substring (n - k) k s = suffix)
  else false.

(** ** The key-value store: [utils/get_sqlitestore.py] *)

Module Sqlitestore.
Section Store.
Context {V : Type}.

(** [[self.db[key] for key in keys if key in self.db.keys()]] *)
Definition mget (db : gmap string V) (keys : list string) : list V :=
  omap (λ key, db !! key) (filter (λ key, key ∈ dom db) keys).

(** [for key, value in key_value_pairs: self.db[key] = value] *)
Definition mset (db : gmap string V)
    (key_value_pairs : list (string * V)) : gmap string V :=
  foldl (λ db kv, <[kv.1 := kv.2]> db) db key_value_pairs.

(** [for key in keys: if key in self.db: del self.db[key]] *)
Definition mdelete (db : gmap string V) (keys : list string)
  : gmap string V :=
  foldl (λ db key, if decide (key ∈ dom db) then delete key db else db)
        db keys.

(** [yield_keys], over the keys in the order [self.db.keys()] lists
    them; [key.startswith(prefix)] is [String.prefix]. *)
Definition yield_keys (db_keys : list string) (prefix : option string)
  : list string :=
  match prefix with
  | None => db_keys
  | Some p => filter (λ key, String.prefix p key = true) db_keys
  end.
End Store.
End Sqlitestore.

(** ** The stores and the effects of the pipeline *)

(** Calls on the collaborators, in the order they are made.  The per-id
    reads of the diff are not recorded: it only reads the index. *)
Inductive Event :=
  | EvClear
  | EvSkip (file_path : string)
  | EvLoad (file_path : string)
  | EvDocstoreSet (keys : list string)
  | EvVsIds
  | EvUpsert (batch : list Document)
  | EvUpsertFailed (batch : list Document)
  | EvHashSet (file_path digest : string).

Global Instance Event_eq_dec : EqDecision Event.
Proof. solve_decision. Defined.

(** The vector index (id to stored chunk), the two tables of the SQLite
    file (parent chunks by id, file digests by path) and the calls made
    so far. *)
Record World := mkWorld {
  vectorstore : gmap string Document;
  docstore : gmap string Document;
  document_hashes : gmap string string;
  trace : list Event
}.

Inductive Exn :=
  | OSError | LoadError | KeyError | IndexError | ValueError
  | StoreWriteError.

Global Instance Exn_eq_dec : EqDecision Exn.
Proof. solve_decision. Defined.

(** A computation changes the world and returns a value or raises; what
    was written before an exception stays written. *)
Definition M (A : Type) : Type := World → World * (Exn + A).

Definition raise {A} (e : Exn) : M A := λ w, (w, inl e).

Global Instance M_ret : MRet M := λ A a w, (w, inr a).

Global Instance M_bind : MBind M := λ A B f m w,
  match m w with
  | (w', inl e) => (w', inl e)
  | (w', inr a) => f a w'
  end.

Definition lift {A} (r : Exn + A) : M A := λ w, (w, r).

Definition emit (e : Event) : M unit := λ w,
  (mkWorld (vectorstore w) (docstore w) (document_hashes w) (trace w ++ [e]),
   inr ()).

(** A [for] loop whose body may raise: the first exception ends it. *)
Fixpoint for_each {A} (body : A → M unit) (l : list A) : M unit :=
  match l with
  | [] => mret ()
  | x :: rest => body x ;; for_each body rest
  end.

(** [vectorstore.get(ids=ids)["metadatas"]]: the stored metadata of the
    ids that are found. *)
Definition vs_get (vs : gmap string Document) (ids : list string)
  : list Document :=
  omap (λ id, vs !! id) ids.

(** ** [chunk_list] (lines 176-187)

    [range] rejects a zero step with [ValueError]. *)
Definition chunk_list {A} (lst : list A) (chunk_size : nat)
  : option (list (list A)) :=
  if decide (chunk_size = 0) then None
  else Some ((λ i, take chunk_size (drop i lst))
               <$> py_range (length lst) chunk_size).

(** ** [get_documents_to_add_or_update] (lines 229-262) *)

Fixpoint diff_loop (documents : list Document) (existing_ids : gset string)
    (vs : gmap string Document) (new_documents updated_documents : list Document)
  : Exn + (list Document * list Document) :=
  match documents with
  | [] => inr (new_documents, updated_documents)
  | document :: rest =>
      match md_id document, md_hash document with
      | Some id, Some hash =>
          if decide (id ∉ existing_ids) then
            diff_loop rest existing_ids vs
                      (new_documents ++ [document]) updated_documents
          else
            match vs_get vs [id] with
            | [] => inl IndexError
            | existing_doc :: _ =>
                if decide (md_hash existing_doc ≠ Some hash) then
                  diff_loop rest existing_ids vs
                            new_documents (updated_documents ++ [document])
                else
                  diff_loop rest existing_ids vs
                            new_documents updated_documents
            end
      | _, _ => inl KeyError
      end
  end.

Definition get_documents_to_add_or_update (documents : list Document)
    (existing_ids : gset string) (vs : gmap string Document)
  : Exn + (list Document * list Document) :=
  diff_loop documents existing_ids vs [] [].

(** The classification in the words of the specification. *)
Inductive Class := New | Updated | Unchanged.

Global Instance Class_eq_dec : EqDecision Class.
Proof. solve_decision. Defined.

Definition classify (existing_ids : gset string) (vs : gmap string Document)
    (document : Document) : Class :=
  match md_id document with
  | Some id =>
      if decide (id ∈ existing_ids) then
        if decide (vs !! id ≫= md_hash = md_hash document)
        then Unchanged else Updated
      else New
  | None => Unchanged
  end.

Definition of_class (c : Class) (existing_ids : gset string)
    (vs : gmap string Document) (documents : list Document) : list Document :=
  filter (λ d, classify existing_ids vs d = c) documents.

(** A candidate carries an id and a hash. *)
Definition carries_id_hash (d : Document) : Prop :=
  is_Some (md_id d) ∧ is_Some (md_hash d).

(** ** A sample corpus

    Stand-ins for the collaborators, used to run the pipeline on
    concrete files. *)

(** In place of SHA-256: the text itself behind a mark. *)
Definition text_digest (text : string) : string := "#" +:+ text.

(** A splitter that cuts at white space, whatever the chunk size. *)
Definition words_splitter (chunk_size : Z) (text : string) : list string :=
  String.words text.

Definition slash_join (root file : string) : string :=
  root +:+ "/" +:+ file.

Definition accept_all (vs : gmap string Document) (batch : list Document)
  : bool := true.

(** An index that takes one chunk and refuses whatever comes next. *)
Definition accept_first (vs : gmap string Document) (batch : list Document)
  : bool := bool_decide (size vs < 1).

Definition page (source : string) (number : Z) (text : string) : Document :=
  mkDocument text (Some source) (Some number) None None None.

(** Two versions of one file: the second moves a paragraph from the
    first page to the second. *)
Definition report_v1 : list Document :=
  [page "docs/a.pdf" 0 "AAAA BBBB"; page "docs/a.pdf" 1 "CCCC"].

Definition report_v2 : list Document :=
  [page "docs/a.pdf" 0 "AAAA"; page "docs/a.pdf" 1 "BBBB CCCC"].

Definition loader_v1 (path : string) : option (list Document) :=
  if decide (path = "docs/a.pdf") then Some report_v1 else None.

Definition loader_v2 (path : string) : option (list Document) :=
  if decide (path = "docs/a.pdf") then Some report_v2 else None.

(** A corpus of three files, the second of which cannot be loaded. *)
Definition corpus_loader (path : string) : option (list Document) :=
  if decide (path = "docs/a.pdf") then Some report_v1
  else if decide (path = "docs/c.pdf")
       then Some [page "docs/c.pdf" 0 "DDDD"]
       else None.

Definition sha1_v1 (path : string) : option string := Some "v1".

Definition sha1_v2 (path : string) : option string := Some "v2".

(** Pages that come back to an earlier page number. *)
Definition pages_0_1_0 : list Document :=
  [page "docs/a.pdf" 0 "AAAA"; page "docs/a.pdf" 1 "BBBB";
   page "docs/a.pdf" 0 "CCCC"].

(** Three chunks of one page. *)
Definition one_page : list Document :=
  [page "docs/a.pdf" 0 "AAAA"; page "docs/a.pdf" 0 "BBBB";
   page "docs/a.pdf" 0 "CCCC"].

Definition chunk (id hash : string) : Document :=
  mkDocument "" (Some "docs/a.pdf") (Some 0%Z) (Some id) (Some hash) None.

Definition empty_world : World := mkWorld ∅ ∅ ∅ [].


(** Closed decidable statements are settled by evaluation. *)
Ltac decide_closed := apply (bool_decide_unpack _); vm_compute; exact I.

(** ** The pipeline, over its external collaborators *)

Section Engine.
Set Default Proof Using "Type".

(** [generate_hash]: SHA-256 of the text, in hexadecimal (hashlib). *)
Variable generate_hash : string → string.
(** The SHA-1 of the bytes of a file, [None] when it cannot be read. *)
Variable file_sha1 : string → option string.
(** [PyPDFLoader(path).load()], [None] when the loader raises. *)
Variable pdf_loader : string → option (list Document).
(** [RecursiveCharacterTextSplitter(chunk_size=n).split_text]. *)
Variable split_text : Z → string → list string.
(** Whether the vector index accepts a batch in a given state. *)
Variable upsert_ok : gmap string Document → list Document → bool.
(** [os.path.join]. *)
Variable path_join : string → string → string.
(** Constants of [env], which is not among the sources. *)
Variable PARENT_CHUNK_SIZE CHILD_CHUNK_SIZE : Z.

(** *** Identity assignment (lines 293-326) *)

(** Lines 308-314: the page key of a document. *)
Definition current_page_id (source_chunk_idx : option Z) (document : Document)
  : string :=
  let source := md_source document in
  let page := md_page document in
  let current_page_id := fmt_source source in
  let current_page_id :=
    match source_chunk_idx with
    | Some idx => current_page_id +:+ ":" +:+ pretty idx
    | None => current_page_id
    end in
  current_page_id +:+ ":" +:+ pretty (page_or_0 page).

(** Lines 307-324: the loop, with its two cursors [last_page_id] and
    [current_chunk_index] as accumulators.  The documents are mutated
    in place and the same list is returned; no document object occurs
    twice in the lists the pipeline passes, so the result is the list
    of the updated values. *)
Fixpoint generate_loop (source_chunk_idx : option Z)
    (last_page_id : option string) (current_chunk_index : nat)
    (documents : list Document) : list Document :=
  match documents with
  | [] => []
  | document :: rest =>
      let cur := current_page_id source_chunk_idx document in
      let current_chunk_index :=
        if decide (Some cur = last_page_id)
        then S current_chunk_index else 0 in
      let id := cur +:+ ":" +:+ pretty current_chunk_index in
      set_hash (generate_hash (page_content document)) (set_id id document)
        :: generate_loop source_chunk_idx (Some cur) current_chunk_index rest
  end.

Definition generate_documents_with_metadata (documents : list Document)
    (source_chunk_idx : option Z) : list Document :=
  generate_loop source_chunk_idx None 0 documents.

(** The assignment in the words of the specification: the id is the
    key followed by a counter; the counter is a fold over the sequence
    of keys that adds one while the key repeats and goes back to zero
    when it changes. *)
Definition counter_step (acc : option string * nat * list string)
    (key : string) : option string * nat * list string :=
  let '(prev, n, out) := acc in
  let n' := if decide (prev = Some key) then S n else 0 in
  (Some key, n', out ++ [key +:+ ":" +:+ pretty n']).

Definition folded_ids (keys : list string) : list string :=
  (foldl counter_step (None, 0, []) keys).2.

(** The counter of position [i], read off the keys directly. *)
Fixpoint counter_at (keys : list string) (i : nat) : nat :=
  match i with
  | 0 => 0
  | S j => if decide (keys !! S j = keys !! j)
           then S (counter_at keys j) else 0
  end.

(** The same counter for a pass that starts with the cursors
    [last_page_id] and [current_chunk_index]. *)
Fixpoint counter_from (last_page_id : option string)
    (current_chunk_index : nat) (keys : list string) (i : nat) : nat :=
  match i with
  | 0 => if decide (keys !! 0 = last_page_id)
         then S current_chunk_index else 0
  | S j => if decide (keys !! S j = keys !! j)
           then S (counter_from last_page_id current_chunk_index keys j)
           else 0
  end.

(** What the pass makes of the document at position [i]. *)
Definition annotate (source_chunk_idx : option Z) (counter : nat)
    (document : Document) : Document :=
  set_hash (generate_hash (page_content document))
    (set_id (current_page_id source_chunk_idx document
               +:+ ":" +:+ pretty counter) document).

(** Chunks of one page never share an id, wherever they stand in the
    sequence. *)
Definition same_page_ids_distinct (documents : list Document)
    (source_chunk_idx : option Z) : Prop :=
  let out := generate_documents_with_metadata documents source_chunk_idx in
  ∀ i j di dj,
    i ≠ j → out !! i = Some di → out !! j = Some dj →
    md_source di = md_source dj → md_page di = md_page dj →
    md_id di ≠ md_id dj.

(** Equal keys stand side by side: between two positions with the
    same key every position has that key. *)
Definition grouped (keys : list string) : Prop :=
  ∀ i j k key,
    i ≤ k ≤ j → keys !! i = Some key → keys !! j = Some key →
    keys !! k = Some key.

(** *** Splitting (lines 135-174) *)

(** [TextSplitter.split_documents] of langchain: every piece of a
    document's text becomes a document with a copy of its metadata. *)
Definition splitter_split_documents (chunk_size : Z)
    (documents : list Document) : list Document :=
  documents ≫= λ document,
    (λ chunk, set_content chunk document)
      <$> split_text chunk_size (page_content document).

(** Lines 165-172, the children of the parent at position [idx]. *)
Definition child_documents (child_chunk_size : Z) (idx : nat)
    (document : Document) : list Document :=
  set_parent (md_id document)
    <$> generate_documents_with_metadata
          (splitter_split_documents child_chunk_size [document])
          (Some (Z.of_nat idx)).

Definition split_documents (documents : list Document)
    (parent_chunk_size child_chunk_size : Z)
  : list Document * list Document :=
  let new_documents :=
    generate_documents_with_metadata
      (splitter_split_documents parent_chunk_size documents) None in
  let sub_documents :=
    if decide (0 < child_chunk_size)%Z
    then mjoin (imap (child_documents child_chunk_size) new_documents)
    else [] in
  (new_documents, sub_documents).

(** *** Writing (lines 189-227 and 264-279) *)

(** [[chunk.metadata["id"] for chunk in chunk_group]] *)
Definition metadata_ids (chunks : list Document) : option (list string) :=
  mapM md_id chunks.

(** [vectorstore.add_documents(chunk_group, ids=ids)]: an upsert of the
    whole batch, or an exception that leaves the index as it was. *)
Definition vectorstore_add_documents (chunk_group : list Document)
    (ids : list string) : M unit := λ w,
  if upsert_ok (vectorstore w) chunk_group then
    (mkWorld (Sqlitestore.mset (vectorstore w) (zip ids chunk_group))
             (docstore w) (document_hashes w)
             (trace w ++ [EvUpsert chunk_group]),
     inr ())
  else
    (mkWorld (vectorstore w) (docstore w) (document_hashes w)
             (trace w ++ [EvUpsertFailed chunk_group]),
     inl StoreWriteError).

(** The index after a batch, and after a sequence of batches, was
    upserted. *)
Definition upsert_batch (vs : gmap string Document)
    (chunk_group : list Document) : gmap string Document :=
  Sqlitestore.mset vs
    (zip (default [] (metadata_ids chunk_group)) chunk_group).

Definition apply_batches (vs : gmap string Document)
    (chunk_groups : list (list Document)) : gmap string Document :=
  foldl upsert_batch vs chunk_groups.

(** Line 278, the body of the loop: the ids are read off the batch,
    then the batch is written. *)
Definition write_batch (chunk_group : list Document) : M unit :=
  match metadata_ids chunk_group with
  | None => raise KeyError
  | Some ids => vectorstore_add_documents chunk_group ids
  end.

Definition add_or_update_documents_to_vectorstore
    (documents : list Document) (chunk_size : nat) : M unit :=
  match chunk_list documents chunk_size with
  | None => raise ValueError
  | Some chunk_groups => for_each write_batch chunk_groups
  end.

(** [docstore.mset(list(zip(ids, documents)))] *)
Definition docstore_mset (documents : list Document) : M unit :=
  match metadata_ids documents with
  | None => raise KeyError
  | Some ids => λ w,
      (mkWorld (vectorstore w)
               (Sqlitestore.mset (docstore w) (zip ids documents))
               (document_hashes w) (trace w ++ [EvDocstoreSet ids]),
       inr ())
  end.

(** [set(vectorstore.get(include=[])["ids"])] with the index it was
    read from, which the diff queries per id. *)
Definition vectorstore_ids : M (gset string * gmap string Document) := λ w,
  (mkWorld (vectorstore w) (docstore w) (document_hashes w)
           (trace w ++ [EvVsIds]),
   inr (dom (vectorstore w), vectorstore w)).

Definition add_documents_to_store (documents sub_documents : list Document)
    (chunk_size : nat) : M unit :=
  let vectorstore_documents :=
    if truthy sub_documents then sub_documents else documents in
  (if truthy sub_documents then docstore_mset documents else mret ()) ;;
  '(existing_ids, vs) ← vectorstore_ids ;
  '(new_chunks, updated_chunks) ←
    lift (get_documents_to_add_or_update vectorstore_documents
                                         existing_ids vs) ;
  (if truthy new_chunks
   then add_or_update_documents_to_vectorstore new_chunks chunk_size
   else mret ()) ;;
  (if truthy updated_chunks
   then add_or_update_documents_to_vectorstore updated_chunks chunk_size
   else mret ()).

(** Upserting chunks one by one under their ids. *)
Definition upsert_chunk (vs : gmap string Document) (chunk : Document)
  : gmap string Document :=
  match md_id chunk with
  | Some id => <[id := chunk]> vs
  | None => vs
  end.

(** The invariant of the two stores for the chunks of one file: every
    child names a parent that is in the document store, and every
    parent is named by a child that is in the vector index. *)
Definition parent_child_consistent (parents children : list Document)
    (w : World) : Prop :=
  (∀ c, c ∈ children →
     ∃ pid p, md_parent c = Some pid ∧ docstore w !! pid = Some p
              ∧ md_id p = Some pid)
  ∧ (∀ p pid, p ∈ parents → md_id p = Some pid →
       ∃ cid c, vectorstore w !! cid = Some c ∧ md_parent c = Some pid).

(** *** The file-digest cache (lines 62-107) *)

Definition get_file_hash (file_path : string) : M string :=
  match file_sha1 file_path with
  | Some digest => mret digest
  | None => raise OSError
  end.

Definition get_document_hash_from_store (file_path : string)
  : M (option string) := λ w,
  let file_hashes := Sqlitestore.mget (document_hashes w) [file_path] in
  (w, inr (if truthy file_hashes then file_hashes !! 0 else None)).

(** [store.mset(pairs)] on the table of file digests. *)
Definition document_hashes_mset (pairs : list (string * string)) : M unit :=
  λ w, (mkWorld (vectorstore w) (docstore w)
                (Sqlitestore.mset (document_hashes w) pairs)
                (trace w ++ ((λ kv, EvHashSet kv.1 kv.2) <$> pairs)),
        inr ()).

Definition add_document_hash (file_path : string) : M unit :=
  digest ← get_file_hash file_path ;
  document_hashes_mset [(file_path, digest)].

(** *** [main] (lines 13-50) *)

Definition load_documents (path : string) : M (list Document) :=
  emit (EvLoad path) ;;
  match pdf_loader path with
  | Some document => mret document
  | None => raise LoadError
  end.

(** Removing [CHROMA_PATH] drops the vector index; removing
    [DOCSTORE_PATH] drops the SQLite file, with both of its tables. *)
Definition clear_database : M unit := λ w,
  (mkWorld ∅ ∅ ∅ (trace w ++ [EvClear]), inr ()).

Definition is_pdf (file : string) : bool := endswith (lower file) ".pdf".

(** Lines 29-50: the body of the loop for one file that passed the
    extension test. *)
Definition process_file (file_path : string) : M unit :=
  local_file_hash ← get_file_hash file_path ;
  document_hash ← get_document_hash_from_store file_path ;
  if decide (Some local_file_hash = document_hash) then
    emit (EvSkip file_path)
  else
    documents ← load_documents file_path ;
    let '(docs, sub_docs) :=
      split_documents documents PARENT_CHUNK_SIZE CHILD_CHUNK_SIZE in
    add_documents_to_store docs sub_docs 500 ;;
    add_document_hash file_path.

(** Lines 28-50: the body of the inner loop, with the extension test
    that lets only PDF files through. *)
Definition visit_file (root file : string) : M unit :=
  if is_pdf file then process_file (path_join root file) else mret ().

(** [walk] is what [os.walk(path)] yields: directories with their
    files. *)
Definition main (reset : bool) (walk : list (string * list string))
  : M unit :=
  (if reset then clear_database else mret ()) ;;
  for_each (λ '(root, files), for_each (visit_file root) files) walk.

(** A file whose digest is not the cached one is ingested, whatever
    the file is. *)
Definition digest_decides_visit (root file : string) (w : World) : Prop :=
  let file_path := path_join root file in
  ∀ digest,
    file_sha1 file_path = Some digest →
    document_hashes w !! file_path ≠ Some digest →
    EvLoad file_path ∈ trace (visit_file root file w).1.

(** *** Retrieval for a query ([query_rag.py], lines 197-221) *)

(** [retriever.invoke(search, where={"source": {"$in": sources}})]. *)
Variable retrieve : string → list string → list Document.




(** *** Shapes of a run *)

(** Events other than a refused batch and a digest write. *)
Definition quiet (e : Event) : Prop :=
  match e with
  | EvUpsertFailed _ | EvHashSet _ _ => False
  | _ => True
  end.

(** A run that writes no digest, and where a refused batch is the last
    thing that happens. *)
Definition steady {A} (w : World) (res : World * (Exn + A)) : Prop :=
  document_hashes res.1 = document_hashes w
  ∧ ∃ pre, Forall quiet pre
      ∧ (trace res.1 = trace w ++ pre
         ∨ ∃ b, trace res.1 = trace w ++ pre ++ [EvUpsertFailed b]
                ∧ res.2 = inl StoreWriteError).

(** A run that is steady, or that succeeds with a digest write as its
    last event. *)
Definition finished {A} (w : World) (res : World * (Exn + A)) : Prop :=
  steady w res
  ∨ (∃ a, res.2 = inr a)
    ∧ ∃ pre p h, Forall quiet pre
        ∧ trace res.1 = trace w ++ pre ++ [EvHashSet p h].

(** No key of the three tables is lost between two worlds. *)
Definition grows (w w' : World) : Prop :=
  dom (vectorstore w) ⊆ dom (vectorstore w')
  ∧ dom (docstore w) ⊆ dom (docstore w')
  ∧ dom (document_hashes w) ⊆ dom (document_hashes w').

(** The batches of a list, none when there is nothing to cut. *)
Definition batches_of (documents : list Document) (chunk_size : nat)
  : list (list Document) :=
  default [] (chunk_list documents chunk_size).

(** The run neither stops on a load error nor leaves a loadable file
    of the corpus unvisited. *)
Definition survives_load_failure (reset : bool)
    (walk : list (string * list string)) (w : World) : Prop :=
  let res := main reset walk w in
  res.2 = inr ()
  ∧ ∀ root files file,
      (root, files) ∈ walk → file ∈ files → is_pdf file = true →
      is_Some (pdf_loader (path_join root file)) →
      EvLoad (path_join root file) ∈ trace res.1
      ∨ EvSkip (path_join root file) ∈ trace res.1.

(** ** Strings: colons and decimal numerals *)

Lemma colon_free_app s t :
  colon_free (s +:+ t) = colon_free s && colon_free t.
Proof.
  induction s as [|c s IH]; simpl; [done|].
  case_decide; [done|]. apply IH.
Qed.

Lemma colon_free_pretty_N_go x s :
  colon_free s = true → colon_free (pretty_N_go x s) = true.
Proof.
  revert s. induction (N.lt_wf_0 x) as [x _ IH]; intros s Hs.
  assert (x = 0 ∨ 0 < x)%N as [->|?] by lia.
  - by rewrite pretty_N_go_0.
  - rewrite pretty_N_go_step by done. apply IH.
    { by apply N.div_lt. }
    simpl. case_decide as Hc; [|done].
    exfalso. revert Hc. unfold pretty_N_char. by repeat case_match.
Qed.

Lemma colon_free_pretty_N (x : N) : colon_free (pretty x) = true.
Proof.
  unfold pretty, pretty_N. case_decide; [done|].
  by apply colon_free_pretty_N_go.
Qed.

Lemma colon_free_pretty_nat (n : nat) : colon_free (pretty n) = true.
Proof. apply colon_free_pretty_N. Qed.

Lemma colon_free_pretty_Z (z : Z) : colon_free (pretty z) = true.
Proof.
  destruct z as [|p|p]; [done| |].
  - apply (colon_free_pretty_N (N.pos p)).
  - change (pretty (Z.neg p)) with ("-" +:+ pretty (N.pos p)).
    rewrite colon_free_app. by rewrite colon_free_pretty_N.
Qed.

(** Reading a field off the left: the text before the first colon. *)
Lemma colon_split_l s1 s2 t1 t2 :
  colon_free s1 = true → colon_free s2 = true →
  s1 +:+ ":" +:+ t1 = s2 +:+ ":" +:+ t2 → s1 = s2 ∧ t1 = t2.
Proof.
  revert s2. induction s1 as [|c s1 IH]; intros [|c2 s2]; cbn;
    intros H1 H2 Heq; simplify_eq/=; repeat case_decide; try done.
  destruct (IH _ H1 H2 H) as [-> ->]. done.
Qed.

(** Reading a field off the right: the text after the last colon. *)
Lemma colon_split_r s1 s2 t1 t2 :
  colon_free t1 = true → colon_free t2 = true →
  s1 +:+ ":" +:+ t1 = s2 +:+ ":" +:+ t2 → s1 = s2 ∧ t1 = t2.
Proof.
  intros H1 H2.
  revert s2. induction s1 as [|c s1 IH]; intros [|c2 s2]; cbn;
    intros Heq; cbv [String.append] in Heq; fold String.append in Heq;
    simplify_eq.
  - done.
  - rewrite colon_free_app in H1. simpl in H1.
    by rewrite andb_false_r in H1.
  - rewrite colon_free_app in H2. simpl in H2.
    by rewrite andb_false_r in H2.
  - match goal with H : _ +:+ _ = _ |- _ =>
      destruct (IH _ H) as [-> ->] end. done.
Qed.

Lemma id_suffix_inj key1 key2 (n1 n2 : nat) :
  key1 +:+ ":" +:+ pretty n1 = key2 +:+ ":" +:+ pretty n2 →
  key1 = key2 ∧ n1 = n2.
Proof.
  intros H. apply colon_split_r in H as [-> H];
    auto using colon_free_pretty_nat.
  split; [done|]. by apply (inj pretty).
Qed.

(** ** Identity assignment *)

Lemma current_page_id_fields idx d :
  current_page_id idx d
  = (fmt_source (md_source d)
       +:+ match idx with Some i => ":" +:+ pretty i | None => "" end)
      +:+ ":" +:+ pretty (default 0%Z (md_page d)).
Proof.
  unfold current_page_id, page_or_0.
  assert (∀ s, s +:+ "" = s) as Hnil.
  { intros s. induction s as [|c s IH]; [done|].
    cbv [String.append]; fold String.append. by rewrite IH. }
  destruct (md_page d) as [p|], idx as [i|]; simpl;
    rewrite ?Hnil; try case_decide; subst; done.
Qed.

Lemma foldl_counter_step_out prev n out keys :
  (foldl counter_step (prev, n, out) keys).2
  = out ++ (foldl counter_step (prev, n, []) keys).2.
Proof.
  revert prev n out.
  induction keys as [|k keys IH]; intros prev n out; simpl.
  - by rewrite app_nil_r.
  - rewrite IH, (IH _ _ [_]). by rewrite <-app_assoc.
Qed.

Lemma generate_loop_folded idx last n documents :
  md_id <$> generate_loop idx last n documents
  = Some <$> (foldl counter_step (last, n, [])
                (current_page_id idx <$> documents)).2.
Proof.
  revert last n.
  induction documents as [|d documents IH]; intros last n; [done|].
  cbn [generate_loop fmap list_fmap foldl counter_step].
  rewrite foldl_counter_step_out, fmap_app, <-IH. cbn [app fmap list_fmap].
  assert ((if decide (Some (current_page_id idx d) = last)
           then S n else 0)
          = (if decide (last = Some (current_page_id idx d))
             then S n else 0)) as ->.
  { repeat case_decide; congruence. }
  done.
Qed.

Lemma counter_from_cons last n k keys i :
  counter_from last n (k :: keys) (S i)
  = counter_from (Some k) (counter_from last n (k :: keys) 0) keys i.
Proof.
  induction i as [|i IH]; [done|].
  cbn [counter_from] in *. rewrite IH. done.
Qed.

Lemma generate_loop_imap idx last n documents :
  generate_loop idx last n documents
  = imap (λ i, annotate idx
            (counter_from last n (current_page_id idx <$> documents) i))
         documents.
Proof.
  revert last n.
  induction documents as [|d documents IH]; intros last n; [done|].
  cbn [generate_loop imap fmap list_fmap]. f_equal.
  rewrite IH. apply imap_ext. intros i x _. unfold compose.
  by rewrite counter_from_cons.
Qed.

Lemma counter_from_start keys i :
  i < length keys → counter_from None 0 keys i = counter_at keys i.
Proof.
  induction i as [|i IH]; intros Hi.
  - cbn. destruct keys; [simpl in Hi; lia|]. by case_decide.
  - cbn [counter_from counter_at]. rewrite IH by lia. done.
Qed.

Lemma generate_imap documents idx :
  generate_documents_with_metadata documents idx
  = imap (λ i, annotate idx
            (counter_at (current_page_id idx <$> documents) i)) documents.
Proof.
  unfold generate_documents_with_metadata. rewrite generate_loop_imap.
  apply imap_ext. intros i x Hx. rewrite counter_from_start; [done|].
  rewrite length_fmap. by eapply lookup_lt_Some.
Qed.

Lemma generate_lookup documents idx i :
  generate_documents_with_metadata documents idx !! i
  = annotate idx (counter_at (current_page_id idx <$> documents) i)
      <$> documents !! i.
Proof. rewrite generate_imap. by rewrite list_lookup_imap. Qed.

Lemma generate_length documents idx :
  length (generate_documents_with_metadata documents idx) = length documents.
Proof. rewrite generate_imap. apply length_imap. Qed.

(** C2: the id of every chunk is its key (source, then the split-pass
    index when there is one, then the page number, 0 when absent)
    followed by a counter; the counter is the fold over the sequence
    that adds one when the key repeats the previous key and restarts at
    zero when it differs.  The ids are thus a function of the sequence
    of keys alone, and two runs on the same sequence give the same ids
    in the same order. *)
Theorem generate_ids_fold_of_keys documents idx :
  let out := generate_documents_with_metadata documents idx in
  let keys := current_page_id idx <$> documents in
  md_id <$> out = Some <$> folded_ids keys
  ∧ md_id <$> out
    = imap (λ i d, Some (current_page_id idx d
                           +:+ ":" +:+ pretty (counter_at keys i)))
           documents
  ∧ keys
    = (λ d, (fmt_source (md_source d)
               +:+ match idx with
                   | Some i => ":" +:+ pretty i
                   | None => ""
                   end)
              +:+ ":" +:+ pretty (default 0%Z (md_page d))) <$> documents
  ∧ length out = length documents.
Proof.
  cbn zeta. split_and!.
  - apply generate_loop_folded.
  - rewrite generate_imap, fmap_imap. done.
  - apply list_fmap_ext. intros _ d _. apply current_page_id_fields.
  - apply generate_length.
Qed.

Lemma counter_at_run keys i j :
  i ≤ j → j < length keys →
  (∀ k, i ≤ k ≤ j → keys !! k = keys !! i) →
  counter_at keys j = counter_at keys i + (j - i).
Proof.
  intros Hij. induction Hij as [|j Hij IH]; intros Hj Hrun.
  - lia.
  - cbn [counter_at]. rewrite decide_True.
    + rewrite IH; [lia|lia|]. intros k Hk. apply Hrun. lia.
    + rewrite (Hrun (S j)), (Hrun j) by lia. done.
Qed.

(** C3, amended: two distinct chunks that stand in one run of the
    sequence, every chunk from the first to the second having the same
    source and the same page number, receive different ids. *)
Theorem same_run_ids_distinct documents idx i j di dj :
  let out := generate_documents_with_metadata documents idx in
  i < j → out !! i = Some di → out !! j = Some dj →
  (∀ k dk, i ≤ k ≤ j → out !! k = Some dk →
           md_source dk = md_source di ∧ md_page dk = md_page di) →
  md_id di ≠ md_id dj.
Proof.
  cbn zeta. intros Hij Hi Hj Hrun Heq.
  assert (∀ k dk, i ≤ k ≤ j →
            generate_documents_with_metadata documents idx !! k = Some dk →
            current_page_id idx dk = current_page_id idx di) as Hkey.
  { intros k dk Hk Hdk. destruct (Hrun k dk Hk Hdk) as [Hs Hp].
    unfold current_page_id. by rewrite Hs, Hp. }
  assert (∀ k d, generate_documents_with_metadata documents idx !! k = Some d →
            ∃ d0, documents !! k = Some d0
                  ∧ current_page_id idx d = current_page_id idx d0
                  ∧ md_id d = Some (current_page_id idx d0 +:+ ":" +:+
                      pretty (counter_at (current_page_id idx <$> documents) k)))
    as Hout.
  { intros k d. rewrite generate_lookup.
    destruct (documents !! k) as [d0|]; [|done]. intros [= <-]. eauto. }
  destruct (Hout i di Hi) as (d0i & Hdi & Hki & Hidi).
  destruct (Hout j dj Hj) as (d0j & Hdj & Hkj & Hidj).
  rewrite Hidi, Hidj in Heq. injection Heq as Heq.
  apply id_suffix_inj in Heq as [_ Hc].
  rewrite (counter_at_run _ i j) in Hc; [lia|lia| |].
  - rewrite length_fmap. by eapply lookup_lt_Some.
  - intros k Hk. rewrite !list_lookup_fmap.
    assert (is_Some (documents !! k)) as [d0k Hd0k].
    { apply lookup_lt_is_Some. apply lookup_lt_Some in Hdj. lia. }
    rewrite Hd0k, Hdi. cbn. f_equal.
    assert (is_Some (generate_documents_with_metadata documents idx !! k))
      as [dk Hdk].
    { rewrite generate_lookup, Hd0k. eauto. }
    destruct (Hout k dk Hdk) as (d0k' & Hd0k' & Hkk & _).
    rewrite Hd0k in Hd0k'. injection Hd0k' as <-.
    rewrite <-Hkk, <-Hki. by apply (Hkey k).
Qed.

(** ** Batching *)

Lemma py_range_lookup stop step k i :
  py_range stop step !! k = Some i →
  i = k * step ∧ k < (stop + step - 1) `div` step.
Proof.
  unfold py_range. rewrite list_lookup_fmap.
  destruct (seq 0 _ !! k) as [k'|] eqn:Hk; [|done].
  apply lookup_seq in Hk as [-> Hk]. intros [= <-]. done.
Qed.

Lemma py_range_count stop step :
  1 ≤ step →
  let m := (stop + step - 1) `div` step in
  stop ≤ m * step ∧ (0 < stop → (m - 1) * step < stop ∧ 1 ≤ m).
Proof.
  intros Hstep m.
  pose proof (Nat.div_mod_eq (stop + step - 1) step) as Hdm.
  pose proof (Nat.mod_upper_bound (stop + step - 1) step) as Hlt.
  fold m in Hdm. nia.
Qed.

Lemma concat_slices {A} (n m : nat) (l : list A) :
  length l ≤ m * n →
  concat ((λ k, take n (drop (k * n) l)) <$> seq 0 m) = l.
Proof.
  revert l. induction m as [|m IH]; intros l Hl.
  - destruct l; [done|simpl in Hl; lia].
  - cbn [seq fmap list_fmap concat]. rewrite <-fmap_S_seq, <-list_fmap_compose.
    trans (take n l ++ drop n l); [|apply take_drop]. f_equal.
    etrans; [|apply (IH (drop n l)); rewrite length_drop; lia].
    f_equal. apply list_fmap_ext. intros _ k _. cbn.
    by rewrite drop_drop.
Qed.

Lemma chunk_list_shape {A} (lst : list A) (n : nat) :
  1 ≤ n →
  ∃ batches,
    chunk_list lst n = Some batches
    ∧ concat batches = lst
    ∧ Forall (λ b, 1 ≤ length b ≤ n) batches
    ∧ (∀ i b, batches !! i = Some b → S i < length batches → length b = n).
Proof.
  intros Hn. unfold chunk_list. rewrite decide_False by lia.
  eexists. split; [done|].
  destruct (py_range_count (length lst) n Hn) as [Hup Hlo].
  assert (∀ i b,
    ((λ i, take n (drop i lst)) <$> py_range (length lst) n) !! i = Some b →
    b = take n (drop (i * n) lst)
    ∧ i < (length lst + n - 1) `div` n) as Hlook.
  { intros i b. rewrite list_lookup_fmap.
    destruct (py_range _ _ !! i) as [j|] eqn:Hj; [|done].
    apply py_range_lookup in Hj as [-> Hi]. intros [= <-]. done. }
  split_and!.
  - unfold py_range. rewrite <-list_fmap_compose.
    by apply concat_slices.
  - apply Forall_lookup. intros i b Hb.
    apply Hlook in Hb as [-> Hi].
    rewrite length_take, length_drop.
    destruct (decide (0 < length lst)) as [Hpos|].
    + destruct (Hlo Hpos).
      assert (i * n ≤ ((length lst + n - 1) `div` n - 1) * n)
        by (apply Nat.mul_le_mono_r; lia).
      lia.
    + assert (length lst + n - 1 < n) as Hsmall by lia.
      apply Nat.div_small in Hsmall. lia.
  - intros i b Hb Hi. apply Hlook in Hb as [-> _].
    rewrite length_fmap in Hi. unfold py_range in Hi.
    rewrite length_fmap, length_seq in Hi.
    rewrite length_take, length_drop.
    assert (S i * n ≤ ((length lst + n - 1) `div` n - 1) * n)
      by (apply Nat.mul_le_mono_r; lia).
    destruct (decide (0 < length lst)) as [Hpos|].
    + destruct (Hlo Hpos). lia.
    + assert (length lst + n - 1 < n) as Hsmall by lia.
      apply Nat.div_small in Hsmall. lia.
Qed.

(** ** The monad *)

Lemma bind_run {A B} (m : M A) (f : A → M B) w :
  (m ≫= f) w
  = match m w with
    | (w', inl e) => (w', inl e)
    | (w', inr a) => f a w'
    end.
Proof. done. Qed.

Lemma for_each_app {A} (body : A → M unit) l1 l2 w :
  for_each body (l1 ++ l2) w
  = (for_each body l1 ;; for_each body l2) w.
Proof.
  revert w. induction l1 as [|x l1 IH]; intros w; [done|].
  cbn [app for_each]. rewrite !bind_run.
  destruct (body x w) as [w1 [e|[]]]; [done|].
  rewrite IH, bind_run. done.
Qed.

Lemma World_eta w :
  mkWorld (vectorstore w) (docstore w) (document_hashes w) (trace w) = w.
Proof. by destruct w. Qed.

(** ** The batched writer *)

Lemma write_batch_ok b w :
  is_Some (metadata_ids b) → upsert_ok (vectorstore w) b = true →
  write_batch b w
  = (mkWorld (upsert_batch (vectorstore w) b) (docstore w)
             (document_hashes w) (trace w ++ [EvUpsert b]), inr ()).
Proof.
  intros [ids Hids] Hok.
  unfold write_batch, upsert_batch, vectorstore_add_documents.
  rewrite Hids, Hok. done.
Qed.

Lemma write_batch_refused b w :
  is_Some (metadata_ids b) → upsert_ok (vectorstore w) b = false →
  write_batch b w
  = (mkWorld (vectorstore w) (docstore w) (document_hashes w)
             (trace w ++ [EvUpsertFailed b]), inl StoreWriteError).
Proof.
  intros [ids Hids] Hok. unfold write_batch, vectorstore_add_documents.
  rewrite Hids, Hok. done.
Qed.

Lemma write_batches_ok batches w :
  Forall (λ b, is_Some (metadata_ids b)) batches →
  (∀ k b, batches !! k = Some b →
          upsert_ok (apply_batches (vectorstore w) (take k batches)) b = true) →
  for_each write_batch batches w
  = (mkWorld (apply_batches (vectorstore w) batches) (docstore w)
             (document_hashes w) (trace w ++ (EvUpsert <$> batches)),
     inr ()).
Proof.
  revert w. induction batches as [|b batches IH]; intros w Hids Hok.
  - cbn. by rewrite app_nil_r, World_eta.
  - apply Forall_cons in Hids as [Hb Hids].
    cbn [for_each]. rewrite bind_run, write_batch_ok; [|done|apply (Hok 0); done].
    rewrite IH; [|done|].
    + cbn. by rewrite <-app_assoc.
    + intros k b' Hk. apply (Hok (S k)). done.
Qed.

Lemma write_batches_refused batches k b w :
  Forall (λ b, is_Some (metadata_ids b)) batches →
  batches !! k = Some b →
  (∀ i bi, i < k → batches !! i = Some bi →
     upsert_ok (apply_batches (vectorstore w) (take i batches)) bi = true) →
  upsert_ok (apply_batches (vectorstore w) (take k batches)) b = false →
  for_each write_batch batches w
  = (mkWorld (apply_batches (vectorstore w) (take k batches)) (docstore w)
             (document_hashes w)
             (trace w ++ (EvUpsert <$> take k batches) ++ [EvUpsertFailed b]),
     inl StoreWriteError).
Proof.
  revert batches w.
  induction k as [|k IH]; intros [|b0 batches] w Hids Hk Hpre Hno; try done.
  - injection Hk as ->. apply Forall_cons in Hids as [Hb Hids].
    cbn [for_each]. rewrite bind_run, write_batch_refused; done.
  - apply Forall_cons in Hids as [Hb Hids].
    cbn [for_each]. rewrite bind_run, write_batch_ok;
      [|done|apply (Hpre 0); [lia|done]].
    rewrite (IH batches _ Hids Hk); cbn.
    + by rewrite <-app_assoc.
    + intros i bi Hi Hbi. apply (Hpre (S i)); [lia|done].
    + done.
Qed.

Lemma metadata_ids_sub (l b : list Document) :
  Forall (λ d, is_Some (md_id d)) l → (∀ d, d ∈ b → d ∈ l) →
  is_Some (metadata_ids b).
Proof.
  intros Hl Hb. apply mapM_is_Some, Forall_forall. intros d Hd.
  rewrite Forall_forall in Hl. apply Hl, Hb, Hd.
Qed.

Lemma chunk_list_elem_of {A} (lst : list A) n batches b x :
  chunk_list lst n = Some batches → b ∈ batches → x ∈ b → x ∈ lst.
Proof.
  unfold chunk_list. case_decide; [done|]. intros [= <-] Hb Hx.
  apply list_elem_of_fmap in Hb as (i & -> & _).
  eapply subseteq_drop, subseteq_take, Hx.
Qed.

Lemma chunk_list_ids documents n batches :
  Forall (λ d, is_Some (md_id d)) documents →
  chunk_list documents n = Some batches →
  Forall (λ b, is_Some (metadata_ids b)) batches.
Proof.
  intros Hids Hb. apply Forall_forall. intros b Hin.
  apply (metadata_ids_sub documents); [done|].
  intros d Hd. by eapply chunk_list_elem_of.
Qed.

(** C8: for a batch size of at least one the list is cut into
    consecutive batches of at most [n] chunks, all but the last of
    exactly [n], whose concatenation is the list; the writer upserts
    them in that order. *)
Theorem chunk_list_batches_in_order (documents : list Document)
    (n : nat) (w : World) :
  1 ≤ n →
  Forall (λ d, is_Some (md_id d)) documents →
  ∃ batches,
    chunk_list documents n = Some batches
    ∧ concat batches = documents
    ∧ Forall (λ b, 1 ≤ length b ≤ n) batches
    ∧ (∀ i b, batches !! i = Some b → S i < length batches → length b = n)
    ∧ ((∀ k b, batches !! k = Some b →
          upsert_ok (apply_batches (vectorstore w) (take k batches)) b
          = true) →
       add_or_update_documents_to_vectorstore documents n w
       = (mkWorld (apply_batches (vectorstore w) batches) (docstore w)
                  (document_hashes w) (trace w ++ (EvUpsert <$> batches)),
          inr ())).
Proof.
  intros Hn Hids.
  destruct (chunk_list_shape documents n Hn)
    as (batches & Hcl & Hcat & Hsz & Hfull).
  exists batches. split_and!; try done.
  intros Hok. unfold add_or_update_documents_to_vectorstore. rewrite Hcl.
  apply write_batches_ok; [|done]. by eapply chunk_list_ids.
Qed.

(** ** The key-value store *)

Lemma mget_omap {V} (db : gmap string V) keys :
  Sqlitestore.mget db keys = omap (λ key, db !! key) keys.
Proof.
  unfold Sqlitestore.mget. induction keys as [|k keys IH]; [done|].
  rewrite filter_cons. destruct (db !! k) as [v|] eqn:Hk.
  - rewrite decide_True by (apply elem_of_dom; eauto).
    cbn. by rewrite Hk, IH.
  - rewrite decide_False by (rewrite elem_of_dom, Hk; by intros [? ?]).
    cbn. by rewrite Hk, IH.
Qed.

Lemma omap_lookup_length {V} (db : gmap string V) keys :
  length (omap (λ key, db !! key) keys) ≤ length keys
  ∧ (length (omap (λ key, db !! key) keys) < length keys
     ↔ ∃ k, k ∈ keys ∧ db !! k = None).
Proof.
  induction keys as [|k keys [IHle IHlt]].
  - cbn. split; [lia|]. split; [lia|]. intros (k & Hk & _).
    by apply elem_of_nil in Hk.
  - cbn. destruct (db !! k) as [v|] eqn:Hk; cbn.
    + split; [lia|]. split.
      * intros Hlt. destruct IHlt as [IH _].
        destruct IH as (k' & Hin & Hnone); [lia|].
        exists k'. split; [by right|done].
      * intros (k' & Hin & Hnone). apply elem_of_cons in Hin as [->|Hin].
        { congruence. }
        destruct IHlt as [_ IH]. specialize (IH (ex_intro _ k' (conj Hin Hnone))).
        lia.
    + split; [lia|]. split; [|lia].
      intros _. exists k. split; [by left|done].
Qed.

(** C10: the multi-get answers with the values of the requested keys
    that are present, in the order of the request, and leaves the
    absent ones out, so the answer is shorter than the request exactly
    when a requested key is absent (and then a leading absent key
    shifts every later value); the digest lookup returns the stored
    digest of a path that has a record and [None] exactly when it has
    none. *)
Theorem mget_present_in_request_order {V} (db : gmap string V)
    (keys : list string) (file_path : string) (w : World) :
  Sqlitestore.mget db keys = omap (λ key, db !! key) keys
  ∧ length (Sqlitestore.mget db keys) ≤ length keys
  ∧ (length (Sqlitestore.mget db keys) < length keys
     ↔ ∃ k, k ∈ keys ∧ db !! k = None)
  ∧ (∀ k, db !! k = None →
       Sqlitestore.mget db (k :: keys) = Sqlitestore.mget db keys)
  ∧ (∀ k v, db !! k = Some v →
       Sqlitestore.mget db (k :: keys) = v :: Sqlitestore.mget db keys)
  ∧ get_document_hash_from_store file_path w
    = (w, inr (document_hashes w !! file_path))
  ∧ ((get_document_hash_from_store file_path w).2 = inr None
     ↔ document_hashes w !! file_path = None).
Proof.
  rewrite !mget_omap. split; [done|].
  destruct (omap_lookup_length db keys) as [Hle Hlt].
  split; [done|]. split; [done|].
  assert (get_document_hash_from_store file_path w
          = (w, inr (document_hashes w !! file_path))) as Hget.
  { unfold get_document_hash_from_store. rewrite mget_omap. cbn.
    destruct (document_hashes w !! file_path); done. }
  split_and!.
  - intros k Hk. rewrite !mget_omap. cbn. by rewrite Hk.
  - intros k v Hk. rewrite !mget_omap. cbn. by rewrite Hk.
  - done.
  - rewrite Hget. cbn. split; [by intros [= ->]|by intros ->].
Qed.

(** ** The store diff *)

Lemma vs_get_singleton (vs : gmap string Document) id stored :
  vs !! id = Some stored → vs_get vs [id] = [stored].
Proof. intros H. unfold vs_get. cbn. by rewrite H. Qed.

Lemma diff_loop_filters documents existing_ids vs news upds :
  Forall carries_id_hash documents →
  (∀ id, id ∈ existing_ids → is_Some (vs !! id)) →
  diff_loop documents existing_ids vs news upds
  = inr (news ++ of_class New existing_ids vs documents,
         upds ++ of_class Updated existing_ids vs documents).
Proof.
  intros Hdocs Hsnap. revert news upds.
  induction Hdocs as [|d documents [[id Hid] [h Hh]] _ IH]; intros news upds.
  - cbn. by rewrite !app_nil_r.
  - cbn [diff_loop]. rewrite Hid, Hh. unfold of_class.
    destruct (decide (id ∈ existing_ids)) as [Hin|Hnin].
    + rewrite (decide_False (P := id ∉ existing_ids))
        by (intros Hn; apply Hn, Hin).
      destruct (Hsnap id Hin) as [stored Hstored].
      rewrite (vs_get_singleton _ _ _ Hstored). cbv beta iota.
      destruct (decide (md_hash stored = Some h)) as [Heq|Hne].
      * assert (classify existing_ids vs d = Unchanged) as Hc.
        { unfold classify. rewrite Hid, Hh, decide_True by done.
          rewrite Hstored. cbn. by rewrite decide_True. }
        rewrite (decide_False (P := md_hash stored ≠ Some h))
          by (intros Hn; apply Hn, Heq).
        rewrite !filter_cons_False by congruence. apply IH.
      * assert (classify existing_ids vs d = Updated) as Hc.
        { unfold classify. rewrite Hid, Hh, decide_True by done.
          rewrite Hstored. cbn. by rewrite decide_False. }
        rewrite (decide_True (P := md_hash stored ≠ Some h)) by done.
        rewrite filter_cons_False by congruence.
        rewrite filter_cons_True by done.
        rewrite IH. by rewrite <-app_assoc.
    + assert (classify existing_ids vs d = New) as Hc.
      { unfold classify. by rewrite Hid, decide_False. }
      rewrite (decide_True (P := id ∉ existing_ids)) by done.
      rewrite filter_cons_True by done.
      rewrite filter_cons_False by congruence.
      rewrite IH. by rewrite <-app_assoc.
Qed.

Lemma of_class_none c existing_ids vs l :
  c ≠ Unchanged →
  Forall (λ d, classify existing_ids vs d = Unchanged) l →
  of_class c existing_ids vs l = [].
Proof.
  intros Hc Hl. unfold of_class. induction Hl as [|d l Hd _ IH]; [done|].
  rewrite filter_cons_False by congruence. done.
Qed.

(** C1: every candidate whose id is not in the snapshot goes to
    [to_insert], every candidate whose id is there with another stored
    hash goes to [to_update], and every candidate whose id is there
    with the same hash is dropped; the two outputs share no chunk and
    keep the order of the input; when all ids are present and one
    candidate alone differs in its hash, the output is that chunk to
    update and nothing to insert. *)
Theorem diff_classifies_candidates (documents : list Document)
    (existing_ids : gset string) (vs : gmap string Document) :
  Forall carries_id_hash documents →
  (∀ id, id ∈ existing_ids → is_Some (vs !! id)) →
  let to_insert := of_class New existing_ids vs documents in
  let to_update := of_class Updated existing_ids vs documents in
  get_documents_to_add_or_update documents existing_ids vs
  = inr (to_insert, to_update)
  ∧ (∀ d id h, md_id d = Some id → md_hash d = Some h →
       (id ∉ existing_ids → classify existing_ids vs d = New)
       ∧ (∀ stored, id ∈ existing_ids → vs !! id = Some stored →
            md_hash stored ≠ Some h →
            classify existing_ids vs d = Updated)
       ∧ (∀ stored, id ∈ existing_ids → vs !! id = Some stored →
            md_hash stored = Some h →
            classify existing_ids vs d = Unchanged))
  ∧ (∀ d, d ∈ documents →
       (d ∈ to_insert ↔ classify existing_ids vs d = New)
       ∧ (d ∈ to_update ↔ classify existing_ids vs d = Updated)
       ∧ (classify existing_ids vs d = Unchanged →
            (d ∉ to_insert) ∧ (d ∉ to_update)))
  ∧ (∀ d, d ∈ to_insert → d ∉ to_update)
  ∧ to_insert `sublist_of` documents
  ∧ to_update `sublist_of` documents
  ∧ (∀ l1 d l2, documents = l1 ++ d :: l2 →
       classify existing_ids vs d = Updated →
       Forall (λ x, classify existing_ids vs x = Unchanged) (l1 ++ l2) →
       get_documents_to_add_or_update documents existing_ids vs
       = inr ([], [d])).
Proof.
  intros Hdocs Hsnap to_insert to_update.
  assert (get_documents_to_add_or_update documents existing_ids vs
          = inr (to_insert, to_update)) as Hrun.
  { unfold get_documents_to_add_or_update.
    by rewrite diff_loop_filters. }
  split; [done|]. split_and!.
  - intros d id h Hid Hh. unfold classify. rewrite Hid, Hh. split_and!.
    + intros Hnin. by rewrite decide_False.
    + intros stored Hin Hst Hne. rewrite decide_True by done.
      rewrite Hst. cbn. by rewrite decide_False.
    + intros stored Hin Hst Heq. rewrite decide_True by done.
      rewrite Hst. cbn. by rewrite decide_True.
  - intros d Hd. unfold to_insert, to_update, of_class.
    rewrite !list_elem_of_filter.
    split_and!; [split; [by intros [? _]|by split]..|].
    intros ->. split; intros [? _]; done.
  - intros d. unfold to_insert, to_update, of_class.
    rewrite !list_elem_of_filter. intros [-> _] [? _]. done.
  - apply sublist_filter.
  - apply sublist_filter.
  - intros l1 d l2 -> Hd Hrest. rewrite Hrun. unfold to_insert, to_update.
    apply Forall_app in Hrest as [H1 H2].
    unfold of_class. rewrite !filter_app.
    rewrite filter_cons_False by congruence.
    rewrite filter_cons_True by done.
    fold (of_class New existing_ids vs l1) (of_class New existing_ids vs l2)
         (of_class Updated existing_ids vs l1)
         (of_class Updated existing_ids vs l2).
    rewrite !of_class_none by done. done.
Qed.

(** ** Shapes of the runs of the pipeline *)

Lemma steady_ret {A} (a : A) w : steady w ((mret a : M A) w).
Proof. split; [done|]. exists []. split; [done|]. left. by rewrite app_nil_r. Qed.

Lemma steady_raise {A} e w : steady w (raise (A := A) e w).
Proof. split; [done|]. exists []. split; [done|]. left. by rewrite app_nil_r. Qed.

Lemma steady_lift {A} (r : Exn + A) w : steady w (lift r w).
Proof. split; [done|]. exists []. split; [done|]. left. by rewrite app_nil_r. Qed.

Lemma steady_emit e w : quiet e → steady w (emit e w).
Proof. intros He. split; [done|]. exists [e]. split; [by constructor|]. by left. Qed.

Lemma steady_bind {A B} (m : M A) (f : A → M B) w :
  steady w (m w) → (∀ a w1, steady w1 (f a w1)) → steady w ((m ≫= f) w).
Proof.
  intros [Hh (pre & Hq & Ht)] Hf. rewrite bind_run.
  destruct (m w) as [w1 [e|a]]; cbn in *.
  - split; [done|]. exists pre. split; [done|].
    destruct Ht as [Ht|(b & Ht & He)]; [by left|].
    right. exists b. split; [done|]. cbn. congruence.
  - destruct Ht as [Ht|(b & _ & He)]; [|done].
    destruct (Hf a w1) as [Hh2 (pre2 & Hq2 & Ht2)].
    split; [congruence|]. exists (pre ++ pre2).
    split; [by apply Forall_app|].
    destruct Ht2 as [Ht2|(b & Ht2 & He2)].
    + left. by rewrite Ht2, Ht, <-app_assoc.
    + right. exists b. split; [|done].
      by rewrite Ht2, Ht, <-!app_assoc.
Qed.

Lemma steady_for_each {A} (body : A → M unit) l w :
  (∀ x w1, steady w1 (body x w1)) → steady w (for_each body l w).
Proof.
  intros Hbody. revert w. induction l as [|x l IH]; intros w.
  - apply steady_ret.
  - cbn [for_each]. apply steady_bind; [apply Hbody|]. intros _ w1. apply IH.
Qed.

Lemma steady_write_batch b w : steady w (write_batch b w).
Proof.
  unfold write_batch. destruct (metadata_ids b) as [ids|];
    [|apply steady_raise].
  unfold vectorstore_add_documents.
  destruct (upsert_ok (vectorstore w) b); split; cbn; try done.
  - exists [EvUpsert b]. split; [by constructor|]. by left.
  - exists []. split; [done|]. right. by exists b.
Qed.

Lemma steady_add_or_update documents n w :
  steady w (add_or_update_documents_to_vectorstore documents n w).
Proof.
  unfold add_or_update_documents_to_vectorstore.
  destruct (chunk_list documents n); [|apply steady_raise].
  apply steady_for_each. intros b w1. apply steady_write_batch.
Qed.

Lemma steady_docstore_mset documents w : steady w (docstore_mset documents w).
Proof.
  unfold docstore_mset. destruct (metadata_ids documents) as [ids|];
    [|apply steady_raise].
  split; [done|]. exists [EvDocstoreSet ids]. split; [by constructor|].
  by left.
Qed.

Lemma steady_vectorstore_ids w : steady w (vectorstore_ids w).
Proof.
  split; [done|]. exists [EvVsIds]. split; [by constructor|]. by left.
Qed.

Lemma steady_add_documents_to_store documents sub_documents n w :
  steady w (add_documents_to_store documents sub_documents n w).
Proof.
  unfold add_documents_to_store.
  apply steady_bind.
  { destruct (truthy sub_documents);
      [apply steady_docstore_mset|apply steady_ret]. }
  intros _ w1. apply steady_bind; [apply steady_vectorstore_ids|].
  intros [existing_ids vs] w2.
  apply steady_bind; [apply steady_lift|].
  intros [new_chunks updated_chunks] w3.
  apply steady_bind.
  { destruct (truthy new_chunks);
      [apply steady_add_or_update|apply steady_ret]. }
  intros _ w4.
  destruct (truthy updated_chunks);
    [apply steady_add_or_update|apply steady_ret].
Qed.

Lemma steady_get_file_hash file_path w : steady w (get_file_hash file_path w).
Proof.
  unfold get_file_hash. destruct (file_sha1 file_path);
    [apply steady_ret|apply steady_raise].
Qed.

Lemma steady_load_documents path w : steady w (load_documents path w).
Proof.
  unfold load_documents. apply steady_bind; [by apply steady_emit|].
  intros _ w1. destruct (pdf_loader path);
    [apply steady_ret|apply steady_raise].
Qed.

Lemma finished_bind {A B} (m : M A) (f : A → M B) w :
  steady w (m w) → (∀ a w1, finished w1 (f a w1)) →
  finished w ((m ≫= f) w).
Proof.
  intros Hm Hf.
  rewrite bind_run. destruct Hm as [Hh (pre & Hq & Ht)].
  destruct (m w) as [w1 [e|a]]; cbn in *.
  - left. split; [done|]. exists pre. split; [done|].
    destruct Ht as [Ht|(b & Ht & He)]; [by left|].
    right. exists b. split; [done|]. cbn. congruence.
  - destruct Ht as [Ht|(b & _ & He)]; [|done].
    destruct (Hf a w1) as [[Hh2 (pre2 & Hq2 & Ht2)]
                          |[Hok (pre2 & p & h & Hq2 & Ht2)]].
    + left. split; [congruence|]. exists (pre ++ pre2).
      split; [by apply Forall_app|].
      destruct Ht2 as [Ht2|(b & Ht2 & He2)].
      * left. by rewrite Ht2, Ht, <-app_assoc.
      * right. exists b. split; [|done].
        by rewrite Ht2, Ht, <-!app_assoc.
    + right. split; [done|]. exists (pre ++ pre2), p, h.
      split; [by apply Forall_app|].
      by rewrite Ht2, Ht, <-!app_assoc.
Qed.

Lemma finished_add_document_hash file_path w :
  finished w (add_document_hash file_path w).
Proof.
  unfold add_document_hash, get_file_hash. rewrite bind_run.
  destruct (file_sha1 file_path) as [digest|]; cbn.
  - right. split; [by exists ()|]. exists [], file_path, digest. done.
  - left. apply (steady_raise (A := unit) OSError w).
Qed.

Lemma finished_process_file file_path w :
  finished w (process_file file_path w).
Proof.
  unfold process_file.
  apply finished_bind; [apply steady_get_file_hash|].
  intros local_file_hash w1.
  apply finished_bind.
  { split; [done|]. exists []. split; [done|]. left. cbn.
    by rewrite app_nil_r. }
  intros document_hash w2. case_decide.
  { left. by apply steady_emit. }
  apply finished_bind; [apply steady_load_documents|].
  intros documents w3.
  destruct (split_documents documents PARENT_CHUNK_SIZE CHILD_CHUNK_SIZE)
    as [docs sub_docs].
  apply finished_bind; [apply steady_add_documents_to_store|].
  intros _ w4. apply finished_add_document_hash.
Qed.

Lemma quiet_not_failed pre b : Forall quiet pre → EvUpsertFailed b ∉ pre.
Proof.
  intros Hq Hin. rewrite Forall_forall in Hq. apply (Hq _ Hin).
Qed.

Lemma quiet_not_hash_set pre p h : Forall quiet pre → EvHashSet p h ∉ pre.
Proof.
  intros Hq Hin. rewrite Forall_forall in Hq. apply (Hq _ Hin).
Qed.

(** C5: when the index refuses batch [k] of a list of chunks, the
    batches before it stay applied, batch [k] and the later ones are
    not applied, and the writer raises; for a file, a refused batch is
    the last event of its run, which raises and leaves the digest cache
    as it was, and a digest write happens only as the last event of a
    run that succeeded, after every batch was accepted. *)
Theorem refused_batch_leaves_digest_unwritten
    (documents : list Document) (n k : nat) (batches : list (list Document))
    (b : list Document) (w : World) (file_path : string) (w0 : World) :
  Forall (λ d, is_Some (md_id d)) documents →
  chunk_list documents n = Some batches →
  batches !! k = Some b →
  (∀ i bi, i < k → batches !! i = Some bi →
     upsert_ok (apply_batches (vectorstore w) (take i batches)) bi = true) →
  upsert_ok (apply_batches (vectorstore w) (take k batches)) b = false →
  add_or_update_documents_to_vectorstore documents n w
  = (mkWorld (apply_batches (vectorstore w) (take k batches)) (docstore w)
             (document_hashes w)
             (trace w ++ (EvUpsert <$> take k batches) ++ [EvUpsertFailed b]),
     inl StoreWriteError)
  ∧ ∃ evs,
      trace (process_file file_path w0).1 = trace w0 ++ evs
      ∧ (∀ b', EvUpsertFailed b' ∈ evs →
           (process_file file_path w0).2 = inl StoreWriteError
           ∧ document_hashes (process_file file_path w0).1
             = document_hashes w0
           ∧ ∃ pre, evs = pre ++ [EvUpsertFailed b'] ∧ Forall quiet pre)
      ∧ (∀ p h, EvHashSet p h ∈ evs →
           (process_file file_path w0).2 = inr ()
           ∧ ∃ pre, evs = pre ++ [EvHashSet p h] ∧ Forall quiet pre)
      ∧ (∀ e, (process_file file_path w0).2 = inl e →
           document_hashes (process_file file_path w0).1
           = document_hashes w0).
Proof.
  intros Hids Hcl Hk Hpre Hno. split.
  { unfold add_or_update_documents_to_vectorstore. rewrite Hcl.
    apply write_batches_refused; try done. by eapply chunk_list_ids. }
  destruct (finished_process_file file_path w0)
    as [[Hh (pre & Hq & [Ht|(b' & Ht & He)])]
       |[[[] Hok] (pre & p & h & Hq & Ht)]].
  - exists pre. split; [done|]. split_and!.
    + intros b' Hin. by apply quiet_not_failed in Hin.
    + intros p h Hin. by apply quiet_not_hash_set in Hin.
    + done.
  - exists (pre ++ [EvUpsertFailed b']). split; [done|]. split_and!.
    + intros b'' Hin. apply elem_of_app in Hin as [Hin|Hin].
      { by apply quiet_not_failed in Hin. }
      apply list_elem_of_singleton in Hin as [= ->]. eauto.
    + intros p h Hin. apply elem_of_app in Hin as [Hin|Hin].
      { by apply quiet_not_hash_set in Hin. }
      by apply list_elem_of_singleton in Hin.
    + done.
  - exists (pre ++ [EvHashSet p h]). split; [done|]. split_and!.
    + intros b' Hin. apply elem_of_app in Hin as [Hin|Hin].
      { by apply quiet_not_failed in Hin. }
      by apply list_elem_of_singleton in Hin.
    + intros p' h' Hin. apply elem_of_app in Hin as [Hin|Hin].
      { by apply quiet_not_hash_set in Hin. }
      apply list_elem_of_singleton in Hin as [= -> ->]. eauto.
    + intros e He. congruence.
Qed.

(** ** The per-file loop *)

Lemma bind_inr {A B} (m : M A) (f : A → M B) w w' b :
  (m ≫= f) w = (w', inr b) →
  ∃ a w1, m w = (w1, inr a) ∧ f a w1 = (w', inr b).
Proof.
  rewrite bind_run. destruct (m w) as [w1 [e|a]]; [done|]. eauto.
Qed.

Lemma steady_trace {A} w (res : World * (Exn + A)) :
  steady w res → ∃ evs, trace res.1 = trace w ++ evs.
Proof.
  intros [_ (pre & _ & [Ht|(b & Ht & _)])]; eauto.
Qed.

Lemma get_document_hash_lookup file_path w :
  get_document_hash_from_store file_path w
  = (w, inr (document_hashes w !! file_path)).
Proof.
  unfold get_document_hash_from_store. rewrite mget_omap. cbn.
  destruct (document_hashes w !! file_path); done.
Qed.

Lemma load_documents_run path w :
  load_documents path w
  = (mkWorld (vectorstore w) (docstore w) (document_hashes w)
             (trace w ++ [EvLoad path]),
     match pdf_loader path with
     | Some documents => inr documents
     | None => inl LoadError
     end).
Proof.
  unfold load_documents. rewrite bind_run. cbn.
  destruct (pdf_loader path); done.
Qed.

Lemma add_document_hash_run file_path digest w :
  file_sha1 file_path = Some digest →
  add_document_hash file_path w
  = (mkWorld (vectorstore w) (docstore w)
             (<[file_path := digest]> (document_hashes w))
             (trace w ++ [EvHashSet file_path digest]), inr ()).
Proof.
  intros H. unfold add_document_hash, get_file_hash. rewrite bind_run, H.
  done.
Qed.

Lemma add_documents_to_store_ok_trace documents sub_documents n w w' :
  add_documents_to_store documents sub_documents n w = (w', inr ()) →
  ∃ e1 e2, trace w' = trace w ++ e1 ++ EvVsIds :: e2.
Proof.
  unfold add_documents_to_store. intros H.
  apply bind_inr in H as (u & w1 & H1 & H).
  apply bind_inr in H as ([existing_ids vs] & w2 & H2 & H).
  assert (steady w (w1, inr u)) as [e1 He1]%steady_trace.
  { rewrite <-H1. destruct (truthy sub_documents);
      [apply steady_docstore_mset|apply steady_ret]. }
  assert (steady w2 (w', inr ())) as [e2 He2]%steady_trace.
  { rewrite <-H. apply steady_bind; [apply steady_lift|].
    intros [new_chunks updated_chunks] w3. apply steady_bind.
    { destruct (truthy new_chunks);
        [apply steady_add_or_update|apply steady_ret]. }
    intros _ w4. destruct (truthy updated_chunks);
      [apply steady_add_or_update|apply steady_ret]. }
  injection H2 as <- _ _. cbn in *. exists e1, e2.
  by rewrite He2, He1, <-!app_assoc.
Qed.

Lemma process_file_skip file_path digest w :
  file_sha1 file_path = Some digest →
  document_hashes w !! file_path = Some digest →
  process_file file_path w
  = (mkWorld (vectorstore w) (docstore w) (document_hashes w)
             (trace w ++ [EvSkip file_path]), inr ()).
Proof.
  intros Hsha Hcached. unfold process_file, get_file_hash.
  rewrite Hsha, bind_run. cbn.
  rewrite bind_run, get_document_hash_lookup, Hcached.
  by rewrite decide_True.
Qed.

Lemma process_file_ingest file_path digest w :
  file_sha1 file_path = Some digest →
  document_hashes w !! file_path ≠ Some digest →
  process_file file_path w
  = (documents ← load_documents file_path ;
     let '(docs, sub_docs) :=
       split_documents documents PARENT_CHUNK_SIZE CHILD_CHUNK_SIZE in
     add_documents_to_store docs sub_docs 500 ;;
     add_document_hash file_path) w.
Proof.
  intros Hsha Hcached. unfold process_file, get_file_hash.
  rewrite Hsha, bind_run. cbn.
  rewrite bind_run, get_document_hash_lookup.
  rewrite decide_False by congruence. done.
Qed.

(** C6, amended: of the files the walk meets, those whose name ends in
    [.pdf], in any letter case, are gated by the digest: when the fresh
    digest equals the cached one the file is skipped, neither store nor
    the cache is touched, nothing is loaded and no call is made on the
    vector index; when the cached digest is absent or different the
    file is loaded, split, diffed against the index and written, and
    its digest is recorded when all of that succeeded.  A file with
    another name is left alone. *)
Theorem unchanged_pdf_is_skipped (root file digest : string) (w : World) :
  let file_path := path_join root file in
  file_sha1 file_path = Some digest →
  (is_pdf file = false → visit_file root file w = (w, inr ()))
  ∧ (is_pdf file = true →
       (document_hashes w !! file_path = Some digest →
          visit_file root file w
          = (mkWorld (vectorstore w) (docstore w) (document_hashes w)
                     (trace w ++ [EvSkip file_path]), inr ()))
       ∧ (document_hashes w !! file_path ≠ Some digest →
            visit_file root file w
            = (documents ← load_documents file_path ;
               let '(docs, sub_docs) :=
                 split_documents documents PARENT_CHUNK_SIZE
                                 CHILD_CHUNK_SIZE in
               add_documents_to_store docs sub_docs 500 ;;
               add_document_hash file_path) w
            ∧ ∃ evs,
                trace (visit_file root file w).1
                = trace w ++ EvLoad file_path :: evs
                ∧ ((visit_file root file w).2 = inr () →
                     EvVsIds ∈ evs
                     ∧ EvHashSet file_path digest ∈ evs
                     ∧ document_hashes (visit_file root file w).1
                         !! file_path
                       = Some digest))).
Proof.
  intros file_path Hsha. unfold visit_file. split; [by intros ->|].
  intros ->. fold file_path. split; [by apply process_file_skip|].
  intros Hcached. split; [by apply (process_file_ingest _ digest)|].
  rewrite (process_file_ingest _ _ _ Hsha Hcached).
  rewrite bind_run, load_documents_run.
  destruct (pdf_loader file_path) as [documents|]; cbv beta iota.
  2:{ exists []. cbn. split; [done|]. done. }
  destruct (split_documents documents PARENT_CHUNK_SIZE CHILD_CHUNK_SIZE)
    as [docs sub_docs].
  rewrite bind_run.
  set (wl := mkWorld _ _ _ _).
  destruct (add_documents_to_store docs sub_docs 500 wl)
    as [w2 [e|[]]] eqn:Hadd.
  - pose proof (steady_add_documents_to_store docs sub_docs 500 wl)
      as [evs Hevs]%steady_trace.
    rewrite Hadd in Hevs. cbn in *. exists evs.
    split; [by rewrite Hevs, <-app_assoc|done].
  - apply add_documents_to_store_ok_trace in Hadd as (e1 & e2 & Ht).
    rewrite (add_document_hash_run _ _ _ Hsha). cbn in *.
    exists (e1 ++ EvVsIds :: e2 ++ [EvHashSet file_path digest]).
    split.
    { rewrite Ht. by rewrite <-!app_assoc. }
    intros _. split_and!.
    + apply elem_of_app. right. by left.
    + apply elem_of_app. right. right. apply elem_of_app. right. by left.
    + apply lookup_insert_eq.
Qed.

(** ** Load failures *)

Lemma for_each_snoc_inr {A} (body : A → M unit) l x w w' :
  for_each body (l ++ [x]) w = (w', inr ()) →
  ∃ w1, for_each body l w = (w1, inr ()) ∧ body x w1 = (w', inr ()).
Proof.
  rewrite for_each_app. intros (u & w1 & Hl & Hx)%bind_inr.
  destruct u. exists w1. split; [done|].
  cbn [for_each] in Hx. apply bind_inr in Hx as ([] & w2 & Hx & Hret).
  by injection Hret as <-.
Qed.

Lemma process_file_load_error file_path digest w :
  file_sha1 file_path = Some digest →
  document_hashes w !! file_path ≠ Some digest →
  pdf_loader file_path = None →
  process_file file_path w
  = (mkWorld (vectorstore w) (docstore w) (document_hashes w)
             (trace w ++ [EvLoad file_path]), inl LoadError).
Proof.
  intros Hsha Hcached Hload.
  rewrite (process_file_ingest _ _ _ Hsha Hcached).
  by rewrite bind_run, load_documents_run, Hload.
Qed.

(** C7, amended: a load error is not caught.  When the loader fails on
    a file, the run stops at that file with the load error: what the
    files before it wrote stays, the file's digest is not recorded, and
    no later file of the corpus is looked at, whatever it is. *)
Theorem load_failure_stops_run (reset : bool)
    (walk1 walk2 : list (string * list string)) (root file : string)
    (files1 files2 : list string) (digest : string) (w w1 : World) :
  main reset (walk1 ++ [(root, files1)]) w = (w1, inr ()) →
  is_pdf file = true →
  file_sha1 (path_join root file) = Some digest →
  document_hashes w1 !! path_join root file ≠ Some digest →
  pdf_loader (path_join root file) = None →
  main reset (walk1 ++ (root, files1 ++ file :: files2) :: walk2) w
  = (mkWorld (vectorstore w1) (docstore w1) (document_hashes w1)
             (trace w1 ++ [EvLoad (path_join root file)]),
     inl LoadError).
Proof.
  unfold main. intros Hrun Hpdf Hsha Hcached Hload.
  apply bind_inr in Hrun as ([] & w0 & Hreset & Hrun).
  rewrite bind_run, Hreset.
  apply for_each_snoc_inr in Hrun as (wa & Hwalk1 & Hfiles1).
  rewrite for_each_app, bind_run, Hwalk1.
  cbn [for_each]. rewrite bind_run.
  rewrite for_each_app, bind_run, Hfiles1.
  cbn [for_each]. rewrite bind_run. unfold visit_file at 1. rewrite Hpdf.
  by rewrite (process_file_load_error _ _ _ Hsha Hcached Hload).
Qed.

(** ** Children of a parent chunk *)

Lemma splitter_single chunk_size p :
  splitter_split_documents chunk_size [p]
  = (λ chunk, set_content chunk p) <$> split_text chunk_size (page_content p).
Proof. unfold splitter_split_documents. cbn. by rewrite app_nil_r. Qed.

Lemma splitter_app chunk_size l1 l2 :
  splitter_split_documents chunk_size (l1 ++ l2)
  = splitter_split_documents chunk_size l1
    ++ splitter_split_documents chunk_size l2.
Proof. unfold splitter_split_documents. apply bind_app. Qed.

Lemma counter_at_constant keys j :
  j < length keys → (∀ k, k ≤ j → keys !! k = keys !! 0) →
  counter_at keys j = j.
Proof.
  intros Hj Hkeys. rewrite (counter_at_run keys 0 j); [cbn; lia|lia|done|].
  intros k [_ Hk]. by apply Hkeys.
Qed.

Lemma child_documents_lookup child_chunk_size idx p j :
  child_documents child_chunk_size idx p !! j
  = (λ t, set_parent (md_id p)
            (annotate (Some (Z.of_nat idx)) j (set_content t p)))
      <$> split_text child_chunk_size (page_content p) !! j.
Proof.
  unfold child_documents.
  rewrite list_lookup_fmap, generate_lookup, splitter_single.
  rewrite list_lookup_fmap.
  destruct (split_text child_chunk_size (page_content p) !! j) as [t|] eqn:Ht;
    [|done].
  cbn. do 3 f_equal. apply counter_at_constant.
  - rewrite !length_fmap. by eapply lookup_lt_Some.
  - intros k Hk. rewrite <-list_fmap_compose, !list_lookup_fmap.
    assert (is_Some (split_text child_chunk_size (page_content p) !! k))
      as [tk ->].
    { apply lookup_lt_is_Some. apply lookup_lt_Some in Ht. lia. }
    assert (is_Some (split_text child_chunk_size (page_content p) !! 0))
      as [t0 ->].
    { apply lookup_lt_is_Some. apply lookup_lt_Some in Ht. lia. }
    done.
Qed.

Lemma child_documents_elem child_chunk_size idx p c :
  c ∈ child_documents child_chunk_size idx p →
  ∃ j t, split_text child_chunk_size (page_content p) !! j = Some t
         ∧ c = set_parent (md_id p)
                 (annotate (Some (Z.of_nat idx)) j (set_content t p)).
Proof.
  intros (j & Hj)%list_elem_of_lookup_1.
  rewrite child_documents_lookup in Hj.
  destruct (split_text child_chunk_size (page_content p) !! j) as [t|] eqn:Ht;
    [|done].
  injection Hj as <-. eauto.
Qed.

Lemma child_key_inj (i i' : nat) p p' (j j' : nat) :
  current_page_id (Some (Z.of_nat i)) p +:+ ":" +:+ pretty j
  = current_page_id (Some (Z.of_nat i')) p' +:+ ":" +:+ pretty j' →
  i = i' ∧ j = j'.
Proof.
  intros [Hkey Hj]%id_suffix_inj. split; [|done].
  unfold current_page_id in Hkey. cbn zeta in Hkey.
  apply colon_split_r in Hkey as [Hkey _];
    auto using colon_free_pretty_Z.
  apply colon_split_r in Hkey as [_ Hi];
    auto using colon_free_pretty_Z.
  apply (inj pretty) in Hi. lia.
Qed.

(** C9: the split-pass component of a child id is the position of its
    parent in the sequence of all parent chunks of the document, so the
    children of parents at different positions never share an id; when
    a change of earlier pages changes the number of parent chunks
    before a later chunk, none of the child ids of that chunk
    survives. *)
Theorem child_ids_embed_parent_position (documents : list Document)
    (parent_chunk_size child_chunk_size : Z) :
  (0 < child_chunk_size)%Z →
  let parents := (split_documents documents parent_chunk_size
                    child_chunk_size).1 in
  let children := (split_documents documents parent_chunk_size
                     child_chunk_size).2 in
  children = mjoin (imap (child_documents child_chunk_size) parents)
  ∧ (∀ idx p j c,
       child_documents child_chunk_size idx p !! j = Some c →
       md_id c
       = Some (((fmt_source (md_source p) +:+ ":" +:+ pretty (Z.of_nat idx))
                  +:+ ":" +:+ pretty (page_or_0 (md_page p)))
                 +:+ ":" +:+ pretty j)
       ∧ md_parent c = md_id p)
  ∧ (∀ idx idx' p p' c c',
       idx ≠ idx' →
       c ∈ child_documents child_chunk_size idx p →
       c' ∈ child_documents child_chunk_size idx' p' →
       md_id c ≠ md_id c')
  ∧ (∀ early1 early2 later k p1 p2,
       let n1 := length (splitter_split_documents parent_chunk_size early1) in
       let n2 := length (splitter_split_documents parent_chunk_size early2) in
       n1 ≠ n2 →
       (split_documents (early1 ++ later) parent_chunk_size
          child_chunk_size).1 !! (n1 + k) = Some p1 →
       (split_documents (early2 ++ later) parent_chunk_size
          child_chunk_size).1 !! (n2 + k) = Some p2 →
       page_content p1 = page_content p2
       ∧ md_source p1 = md_source p2
       ∧ md_page p1 = md_page p2
       ∧ ∀ c1 c2,
           c1 ∈ child_documents child_chunk_size (n1 + k) p1 →
           c2 ∈ child_documents child_chunk_size (n2 + k) p2 →
           md_id c1 ≠ md_id c2).
Proof.
  intros HC parents children.
  assert (∀ idx idx' p p' c c',
            idx ≠ idx' →
            c ∈ child_documents child_chunk_size idx p →
            c' ∈ child_documents child_chunk_size idx' p' →
            md_id c ≠ md_id c') as Hdiff.
  { intros idx idx' p p' c c' Hne
      (j & t & _ & ->)%child_documents_elem
      (j' & t' & _ & ->)%child_documents_elem.
    cbn. intros [= Heq]. apply child_key_inj in Heq as [? _]. done. }
  split_and!.
  - unfold children, split_documents. cbn. by rewrite decide_True.
  - intros idx p j c. rewrite child_documents_lookup.
    destruct (split_text child_chunk_size (page_content p) !! j); [|done].
    intros [= <-]. done.
  - done.
  - intros early1 early2 later k p1 p2 n1 n2 Hne.
    unfold split_documents. cbn [fst].
    rewrite !generate_lookup, !splitter_app.
    rewrite !lookup_app_r by (unfold n1, n2; lia).
    replace (n1 + k - length (splitter_split_documents parent_chunk_size early1))
      with k by (unfold n1; lia).
    replace (n2 + k - length (splitter_split_documents parent_chunk_size early2))
      with k by (unfold n2; lia).
    destruct (splitter_split_documents parent_chunk_size later !! k) as [raw|];
      [|done].
    cbn. intros [= <-] [= <-]. split_and!; try done.
    intros c1 c2. apply Hdiff. lia.
Qed.

(** ** Upserts, chunk by chunk *)

Lemma mset_zip_ids (m : gmap string Document) l ids :
  metadata_ids l = Some ids →
  Sqlitestore.mset m (zip ids l) = foldl upsert_chunk m l.
Proof.
  unfold metadata_ids, Sqlitestore.mset.
  intros H%mapM_Some. revert m.
  induction H as [|d id l ids Hd _ IH]; intros m; [done|].
  cbn. rewrite IH. f_equal. unfold upsert_chunk. by rewrite Hd.
Qed.

Lemma upsert_batch_chunks vs b :
  is_Some (metadata_ids b) → upsert_batch vs b = foldl upsert_chunk vs b.
Proof.
  intros [ids Hids]. unfold upsert_batch. rewrite Hids. cbn.
  by apply mset_zip_ids.
Qed.

Lemma apply_batches_chunks vs batches :
  Forall (λ b, is_Some (metadata_ids b)) batches →
  apply_batches vs batches = foldl upsert_chunk vs (concat batches).
Proof.
  intros H. revert vs. unfold apply_batches.
  induction H as [|b batches Hb _ IH]; intros vs; [reflexivity|].
  cbn [foldl concat]. rewrite foldl_app, <-(upsert_batch_chunks vs b Hb).
  apply IH.
Qed.

Lemma upsert_lookup_other (m : gmap string Document) l k :
  (∀ d, d ∈ l → md_id d ≠ Some k) →
  foldl upsert_chunk m l !! k = m !! k.
Proof.
  revert m. induction l as [|d l IH]; intros m Hl; [done|].
  cbn. rewrite IH by (intros d' Hd'; apply Hl; by right).
  unfold upsert_chunk. destruct (md_id d) as [id|] eqn:Hid; [|done].
  apply lookup_insert_ne. intros ->. by apply (Hl d); [left|].
Qed.

Lemma upsert_lookup_some (m : gmap string Document) l d k :
  d ∈ l → md_id d = Some k →
  ∃ d', foldl upsert_chunk m l !! k = Some d' ∧ md_id d' = Some k ∧ d' ∈ l.
Proof.
  revert d. induction l as [|x l IH] using rev_ind; intros d Hd Hk.
  - by apply elem_of_nil in Hd.
  - rewrite foldl_app. cbn. unfold upsert_chunk at 1.
    destruct (decide (md_id x = Some k)) as [Hx|Hx].
    + rewrite Hx, lookup_insert_eq. exists x. split_and!; [done|done|].
      apply elem_of_app. right. by left.
    + apply elem_of_app in Hd as [Hd|Hd].
      * destruct (IH d Hd Hk) as (d' & Hl & Hid & Hin).
        exists d'. split_and!; [|done|apply elem_of_app; by left].
        destruct (md_id x) as [id|]; [|done].
        rewrite lookup_insert_ne by congruence. done.
      * apply list_elem_of_singleton in Hd as ->. done.
Qed.

Lemma upsert_lookup_functional (m : gmap string Document) l d k :
  (∀ c1 c2, c1 ∈ l → c2 ∈ l → md_id c1 = md_id c2 → c1 = c2) →
  d ∈ l → md_id d = Some k →
  foldl upsert_chunk m l !! k = Some d.
Proof.
  intros Hfun Hd Hk.
  destruct (upsert_lookup_some m l d k Hd Hk) as (d' & -> & Hid & Hin).
  f_equal. apply Hfun; [done|done|congruence].
Qed.

(** ** What a successful write leaves *)

Lemma write_batches_inr batches w w' :
  for_each write_batch batches w = (w', inr ()) →
  Forall (λ b, is_Some (metadata_ids b)) batches
  ∧ vectorstore w' = apply_batches (vectorstore w) batches
  ∧ docstore w' = docstore w.
Proof.
  revert w. induction batches as [|b batches IH]; intros w.
  - cbn. intros [= <-]. done.
  - cbn [for_each]. intros ([] & w1 & Hb & Hrest)%bind_inr.
    unfold write_batch in Hb.
    destruct (metadata_ids b) as [ids|] eqn:Hids; [|done].
    unfold vectorstore_add_documents in Hb.
    destruct (upsert_ok (vectorstore w) b); [|done].
    injection Hb as <-.
    destruct (IH _ Hrest) as (Hall & Hvs & Hds). cbn in *.
    split_and!; [|by rewrite Hvs; unfold upsert_batch; rewrite Hids|done].
    constructor; [by rewrite Hids|done].
Qed.

Lemma add_or_update_inr documents n w w' :
  add_or_update_documents_to_vectorstore documents n w = (w', inr ()) →
  vectorstore w' = foldl upsert_chunk (vectorstore w) documents
  ∧ docstore w' = docstore w.
Proof.
  unfold add_or_update_documents_to_vectorstore.
  destruct (chunk_list documents n) as [batches|] eqn:Hcl; [|done].
  intros (Hall & Hvs & Hds)%write_batches_inr. split; [|done].
  rewrite Hvs, apply_batches_chunks by done. f_equal.
  unfold chunk_list in Hcl. case_decide; [done|].
  destruct (chunk_list_shape documents n) as (batches' & Hcl' & Hcat & _);
    [lia|].
  unfold chunk_list in Hcl'. rewrite decide_False in Hcl' by done.
  congruence.
Qed.

Lemma optional_write_inr documents n w w' :
  (if truthy documents
   then add_or_update_documents_to_vectorstore documents n
   else mret ()) w = (w', inr ()) →
  vectorstore w' = foldl upsert_chunk (vectorstore w) documents
  ∧ docstore w' = docstore w.
Proof.
  destruct documents as [|d documents]; cbn [truthy].
  - intros [= <-]. done.
  - apply add_or_update_inr.
Qed.

Lemma docstore_mset_inr documents w w' :
  docstore_mset documents w = (w', inr ()) →
  vectorstore w' = vectorstore w
  ∧ docstore w' = foldl upsert_chunk (docstore w) documents.
Proof.
  unfold docstore_mset.
  destruct (metadata_ids documents) as [ids|] eqn:Hids; [|done].
  intros [= <-]. cbn. split; [done|]. by apply mset_zip_ids.
Qed.


Lemma children_elem documents parent_chunk_size child_chunk_size c :
  c ∈ (split_documents documents parent_chunk_size child_chunk_size).2 →
  ∃ idx p,
    (split_documents documents parent_chunk_size child_chunk_size).1 !! idx
    = Some p
    ∧ c ∈ child_documents child_chunk_size idx p.
Proof.
  unfold split_documents. cbn. case_decide; [|by intros ?%elem_of_nil].
  intros (l & Hc & Hl)%list_elem_of_join.
  apply elem_of_lookup_imap in Hl as (idx & p & -> & Hp). eauto.
Qed.

Lemma child_has_id_hash child_chunk_size idx p c :
  c ∈ child_documents child_chunk_size idx p → carries_id_hash c.
Proof.
  intros (j & t & _ & ->)%child_documents_elem. split; by eexists.
Qed.

Lemma children_ids_functional documents parent_chunk_size child_chunk_size
    c1 c2 :
  let children :=
    (split_documents documents parent_chunk_size child_chunk_size).2 in
  c1 ∈ children → c2 ∈ children → md_id c1 = md_id c2 → c1 = c2.
Proof.
  intros children (i1 & p1 & Hp1 & Hc1)%children_elem
                  (i2 & p2 & Hp2 & Hc2)%children_elem.
  apply child_documents_elem in Hc1 as (j1 & t1 & Ht1 & ->).
  apply child_documents_elem in Hc2 as (j2 & t2 & Ht2 & ->).
  cbn. intros [= Heq]. apply child_key_inj in Heq as [-> ->].
  rewrite Hp1 in Hp2. injection Hp2 as ->.
  rewrite Ht1 in Ht2. by injection Ht2 as ->.
Qed.

Lemma classify_same_id existing_ids vs c1 c2 :
  md_id c1 = md_id c2 → classify existing_ids vs c1 = New →
  classify existing_ids vs c2 = New.
Proof.
  unfold classify. intros <-. destruct (md_id c1); [|done].
  repeat case_decide; done.
Qed.

(** C4, amended: after a successful ingestion of the chunks of a file
    with child splitting enabled, every child chunk names a parent
    chunk of the file that is in the document store under that id, and
    every child that the diff classified as new or updated is in the
    vector index under its own id, naming its parent; so a parent with
    at least one such child is referenced from the vector index. *)
Theorem ingest_links_children_to_parents (documents : list Document)
    (parent_chunk_size child_chunk_size : Z) (n : nat) (w w' : World) :
  (0 < child_chunk_size)%Z →
  let parents := (split_documents documents parent_chunk_size
                    child_chunk_size).1 in
  let children := (split_documents documents parent_chunk_size
                     child_chunk_size).2 in
  add_documents_to_store parents children n w = (w', inr ()) →
  (∀ c, c ∈ children →
     ∃ pid p, md_parent c = Some pid ∧ docstore w' !! pid = Some p
              ∧ md_id p = Some pid ∧ p ∈ parents)
  ∧ (∀ c, c ∈ children →
       classify (dom (vectorstore w)) (vectorstore w) c ≠ Unchanged →
       ∃ cid, md_id c = Some cid ∧ vectorstore w' !! cid = Some c)
  ∧ (∀ idx p pid c,
       parents !! idx = Some p → md_id p = Some pid →
       c ∈ child_documents child_chunk_size idx p →
       classify (dom (vectorstore w)) (vectorstore w) c ≠ Unchanged →
       ∃ cid c', vectorstore w' !! cid = Some c'
                 ∧ md_parent c' = Some pid).
Proof.
  intros HC parents children Hrun.
  assert (Forall carries_id_hash children) as Hcarry.
  { apply Forall_forall. intros c (idx & p & _ & Hc)%children_elem.
    by eapply child_has_id_hash. }
  assert (∀ idx p c, parents !! idx = Some p →
            c ∈ child_documents child_chunk_size idx p → c ∈ children)
    as Hchild.
  { intros idx p c Hp Hc. unfold children, split_documents. cbn.
    rewrite decide_True by done. apply list_elem_of_join.
    exists (child_documents child_chunk_size idx p). split; [done|].
    apply elem_of_lookup_imap. eauto. }
  assert (∀ c, c ∈ children →
            ∃ idx p pid, parents !! idx = Some p ∧ md_id p = Some pid
                         ∧ md_parent c = Some pid) as Hparent.
  { intros c (idx & p & Hp & Hc)%children_elem.
    apply child_documents_elem in Hc as (j & t & _ & ->).
    pose proof Hp as Hp'. unfold split_documents in Hp'. cbn [fst] in Hp'.
    rewrite generate_lookup in Hp'.
    destruct (splitter_split_documents _ _ !! idx) as [raw|]; [|done].
    injection Hp' as Hp'. exists idx, p. eexists.
    split; [done|]. rewrite <-Hp'. cbn. done. }
  assert (children = [] ∨ truthy children = true) as [Hnil|Htruthy]
    by (destruct children; auto).
  { split_and!.
    - intros c Hc. rewrite Hnil in Hc. by apply elem_of_nil in Hc.
    - intros c Hc. rewrite Hnil in Hc. by apply elem_of_nil in Hc.
    - intros idx p pid c Hp _ Hc _. apply (Hchild idx p c Hp) in Hc.
      rewrite Hnil in Hc. by apply elem_of_nil in Hc. }
  unfold add_documents_to_store in Hrun. rewrite Htruthy in Hrun.
  apply bind_inr in Hrun as ([] & w1 & Hstore & Hrun).
  apply bind_inr in Hrun as ([existing_ids vs] & w2 & Hids & Hrun).
  apply bind_inr in Hrun as ([new_chunks updated_chunks] & w3 & Hdiff & Hrun).
  apply bind_inr in Hrun as ([] & w4 & Hnew & Hupd).
  apply optional_write_inr in Hnew as [Hvs4 Hds4].
  apply optional_write_inr in Hupd as [Hvs' Hds'].
  apply docstore_mset_inr in Hstore as [Hvs1 Hds1].
  injection Hids as <- <- <-. cbn in Hdiff.
  unfold lift in Hdiff. injection Hdiff as <- Hdiff. cbn in Hvs4, Hds4.
  unfold get_documents_to_add_or_update in Hdiff.
  rewrite diff_loop_filters in Hdiff;
    [|done|by intros id ?%elem_of_dom].
  injection Hdiff as <- <-. rewrite Hvs1 in *.
  assert (∀ c, c ∈ children →
            classify (dom (vectorstore w)) (vectorstore w) c ≠ Unchanged →
            ∃ cid, md_id c = Some cid ∧ vectorstore w' !! cid = Some c)
    as Hwritten.
  { intros c Hc Hclass.
    destruct (Forall_forall carries_id_hash children) as [Hall _].
    destruct (Hall Hcarry c Hc) as [[cid Hcid] _].
    exists cid. split; [done|]. rewrite Hvs', Hvs4.
    destruct (classify (dom (vectorstore w)) (vectorstore w) c) eqn:Hcl;
      [| |done].
    - rewrite upsert_lookup_other.
      + apply upsert_lookup_functional; [|by apply list_elem_of_filter|done].
        intros c1 c2 [_ H1]%list_elem_of_filter [_ H2]%list_elem_of_filter.
        by apply (children_ids_functional documents parent_chunk_size
                  child_chunk_size).
      + intros d [Hd _]%list_elem_of_filter Hid.
        rewrite (classify_same_id _ _ c d) in Hd; [done|congruence|done].
    - apply upsert_lookup_functional; [|by apply list_elem_of_filter|done].
      intros c1 c2 [_ H1]%list_elem_of_filter [_ H2]%list_elem_of_filter.
      by apply (children_ids_functional documents parent_chunk_size
                  child_chunk_size). }
  split_and!.
  - intros c Hc. destruct (Hparent c Hc) as (idx & p & pid & Hp & Hpid & Hpar).
    destruct (upsert_lookup_some (docstore w) parents p pid)
      as (p' & Hlook & Hid' & Hin'); [by eapply list_elem_of_lookup_2|done|].
    exists pid, p'. rewrite Hds', Hds4, Hds1. done.
  - done.
  - intros idx p pid c Hp Hpid Hc Hclass.
    destruct (Hwritten c (Hchild idx p c Hp Hc) Hclass) as (cid & _ & Hlook).
    exists cid, c. split; [done|].
    apply child_documents_elem in Hc as (j & t & _ & ->). done.
Qed.

(** ** More on the key-value store *)

Lemma mset_lookup_other {V} (db : gmap string V) kvs k :
  k ∉ kvs.*1 → Sqlitestore.mset db kvs !! k = db !! k.
Proof.
  unfold Sqlitestore.mset. revert db.
  induction kvs as [|[k0 v0] kvs IH]; intros db Hk; [done|].
  cbn in *. apply not_elem_of_cons in Hk as [Hne Hk].
  rewrite IH by done. by apply lookup_insert_ne.
Qed.

Lemma mget_singleton {V} (db : gmap string V) k :
  Sqlitestore.mget db [k] = option_list (db !! k).
Proof. rewrite mget_omap. cbn. by destruct (db !! k). Qed.

(** The store keeps what was last written: after [mset], a key reads
    back the value of the last pair that names it, and a key that no
    pair names reads as before. *)
Theorem mset_then_mget {V} (db : gmap string V)
    (key_value_pairs : list (string * V)) (k : string) :
  (∀ before v after,
     key_value_pairs = before ++ (k, v) :: after → k ∉ after.*1 →
     Sqlitestore.mget (Sqlitestore.mset db key_value_pairs) [k] = [v])
  ∧ (k ∉ key_value_pairs.*1 →
       Sqlitestore.mget (Sqlitestore.mset db key_value_pairs) [k]
       = Sqlitestore.mget db [k]).
Proof.
  split.
  - intros before v after -> Hafter.
    rewrite mget_singleton. unfold Sqlitestore.mset.
    rewrite foldl_app. cbn [foldl fst snd].
    fold (Sqlitestore.mset
            (<[k:=v]> (foldl (λ db kv, <[kv.1:=kv.2]> db) db before)) after).
    by rewrite mset_lookup_other, lookup_insert_eq.
  - intros Hk. rewrite !mget_singleton. by rewrite mset_lookup_other.
Qed.

Lemma mdelete_lookup {V} (db : gmap string V) keys k :
  Sqlitestore.mdelete db keys !! k
  = if decide (k ∈ keys) then None else db !! k.
Proof.
  unfold Sqlitestore.mdelete. revert db.
  induction keys as [|k0 keys IH]; intros db; [done|].
  cbn [foldl]. rewrite IH.
  destruct (decide (k ∈ keys)) as [Hin|Hnin].
  - rewrite (decide_True (P := k ∈ k0 :: keys)) by (by right). done.
  - destruct (decide (k = k0)) as [->|Hne].
    + rewrite (decide_True (P := k0 ∈ k0 :: keys)) by (by left).
      case_decide as Hdom; [apply lookup_delete_eq|].
      by apply not_elem_of_dom.
    + rewrite (decide_False (P := k ∈ k0 :: keys))
        by (intros [?|?]%elem_of_cons; done).
      case_decide; [by apply lookup_delete_ne|done].
Qed.

(** [mdelete] removes exactly the listed keys: they read as absent
    afterwards, the other keys read as before, a listed key that was
    not there is passed over, and deleting again changes nothing. *)
Theorem mdelete_removes_listed_keys {V} (db : gmap string V)
    (keys : list string) :
  (∀ k, Sqlitestore.mdelete db keys !! k
        = if decide (k ∈ keys) then None else db !! k)
  ∧ Sqlitestore.mget (Sqlitestore.mdelete db keys) keys = []
  ∧ (∀ others, (∀ k, k ∈ others → k ∉ keys) →
       Sqlitestore.mget (Sqlitestore.mdelete db keys) others
       = Sqlitestore.mget db others)
  ∧ Sqlitestore.mdelete (Sqlitestore.mdelete db keys) keys
    = Sqlitestore.mdelete db keys
  ∧ ((∀ k, k ∈ keys → db !! k = None) →
       Sqlitestore.mdelete db keys = db).
Proof.
  split_and!.
  - apply mdelete_lookup.
  - rewrite mget_omap.
    assert (∀ l, (∀ k, k ∈ l → k ∈ keys) →
              omap (λ key, Sqlitestore.mdelete db keys !! key) l = [])
      as Hall.
    { induction l as [|k l IH]; intros Hl; [done|].
      cbn. rewrite mdelete_lookup, decide_True by (apply Hl; by left).
      apply IH. intros k' Hk'. apply Hl. by right. }
    by apply Hall.
  - intros others Hothers. rewrite !mget_omap.
    induction others as [|k others IH]; [done|].
    cbn. rewrite mdelete_lookup, decide_False by (apply Hothers; by left).
    rewrite IH; [done|]. intros k' Hk'. apply Hothers. by right.
  - apply map_eq. intros k. rewrite !mdelete_lookup.
    by case_decide.
  - intros Habsent. apply map_eq. intros k. rewrite mdelete_lookup.
    case_decide; [by rewrite Habsent|done].
Qed.

Lemma prefix_trans p1 p2 k :
  String.prefix p1 p2 = true → String.prefix p2 k = true →
  String.prefix p1 k = true.
Proof.
  revert p2 k. induction p1 as [|c p1 IH]; intros p2 k.
  { intros _ _. by destruct k. }
  destruct p2 as [|c2 p2]; [done|]. destruct k as [|ck k].
  { cbn. by destruct (ascii_dec c c2). }
  cbn. destruct (ascii_dec c c2) as [->|]; [|done].
  destruct (ascii_dec c2 ck) as [->|]; [|done]. apply IH.
Qed.

(** Listing keys by prefix: the empty prefix lists every key, as no
    prefix does; a longer prefix lists a part of what a shorter one
    lists, in the same order; and a key is listed exactly when it is a
    key that starts with the prefix. *)
Theorem yield_keys_by_prefix (db_keys : list string) (p1 p2 : string) :
  String.prefix p1 p2 = true →
  Sqlitestore.yield_keys db_keys (Some p2)
    `sublist_of` Sqlitestore.yield_keys db_keys (Some p1)
  ∧ Sqlitestore.yield_keys db_keys (Some p1)
      `sublist_of` Sqlitestore.yield_keys db_keys None
  ∧ Sqlitestore.yield_keys db_keys (Some "")
    = Sqlitestore.yield_keys db_keys None
  ∧ (∀ k, k ∈ Sqlitestore.yield_keys db_keys (Some p1)
          ↔ k ∈ db_keys ∧ ∃ rest, k = p1 +:+ rest).
Proof.
  intros Hp. unfold Sqlitestore.yield_keys. split_and!.
  - induction db_keys as [|k ks IH]; [done|].
    rewrite !filter_cons.
    destruct (decide (String.prefix p2 k = true)) as [H2|H2].
    + rewrite decide_True by (by eapply prefix_trans).
      by constructor.
    + case_decide; [by constructor|done].
  - apply sublist_filter.
  - induction db_keys as [|k ks IH]; [done|].
    rewrite filter_cons. cbn. destruct k; by rewrite IH.
  - intros k. rewrite list_elem_of_filter.
    assert (String.prefix p1 k = true ↔ ∃ rest, k = p1 +:+ rest) as ->.
    { clear. revert k. induction p1 as [|c p1 IH]; intros k.
      - split; [intros _; by exists k|by destruct k].
      - destruct k as [|ck k]; cbn.
        + split; [done|intros [rest Hrest]; done].
        + destruct (ascii_dec c ck) as [->|Hne].
          * rewrite IH. split; intros [rest Hrest]; exists rest.
            { cbv [String.append]; fold String.append. by rewrite Hrest. }
            { cbv [String.append] in Hrest; fold String.append in Hrest.
              by injection Hrest. }
          * split; [done|]. intros [rest Hrest].
            cbv [String.append] in Hrest; fold String.append in Hrest.
            by injection Hrest. }
    split; intros [? ?]; by split.
Qed.

(** ** More on identity assignment *)

Lemma annotate_key idx idx' c d :
  current_page_id idx (annotate idx' c d) = current_page_id idx d.
Proof. done. Qed.

Lemma generate_keys documents idx idx' :
  current_page_id idx' <$> generate_documents_with_metadata documents idx
  = current_page_id idx' <$> documents.
Proof.
  apply list_eq. intros i.
  rewrite !list_lookup_fmap, generate_lookup.
  by destruct (documents !! i).
Qed.

(** The pass changes the id and the hash of a chunk and nothing else:
    text, source, page and parent reference stay, the hash is the
    digest of the text, the order is kept; and a second pass over its
    own output changes nothing. *)
Theorem generate_keeps_chunks (documents : list Document)
    (idx : option Z) :
  let out := generate_documents_with_metadata documents idx in
  generate_documents_with_metadata out idx = out
  ∧ Forall2 (λ d d',
       page_content d' = page_content d
       ∧ md_source d' = md_source d
       ∧ md_page d' = md_page d
       ∧ md_parent d' = md_parent d
       ∧ md_hash d' = Some (generate_hash (page_content d)))
      documents out.
Proof.
  cbn zeta. split.
  - apply list_eq. intros i.
    rewrite generate_lookup, generate_keys, generate_lookup.
    by destruct (documents !! i).
  - apply Forall2_same_length_lookup. split; [by rewrite generate_length|].
    intros i d d' Hd. rewrite generate_lookup, Hd. by intros [= <-].
Qed.

Lemma string_app_nil_r (s : string) : s +:+ "" = s.
Proof.
  induction s as [|c s IH]; [done|].
  cbv [String.append]; fold String.append. by rewrite IH.
Qed.

(** Comparing page keys as strings is exact: two chunks of a pass get
    the same key exactly when their sources print alike and their page
    numbers, an absent page counting as page 0, are equal. *)
Theorem page_key_compares_source_and_page (idx : option Z)
    (d1 d2 : Document) :
  current_page_id idx d1 = current_page_id idx d2
  ↔ fmt_source (md_source d1) = fmt_source (md_source d2)
    ∧ page_or_0 (md_page d1) = page_or_0 (md_page d2).
Proof.
  unfold current_page_id. cbn zeta. split.
  - intros H. apply colon_split_r in H as [Hsrc Hpage];
      auto using colon_free_pretty_Z.
    apply (inj pretty) in Hpage. split; [|done].
    destruct idx as [i|]; [|done].
    by apply colon_split_r in Hsrc as [Hsrc _];
      auto using colon_free_pretty_Z.
  - by intros [-> ->].
Qed.

Lemma counter_at_grouped keys i j key :
  grouped keys → i ≤ j →
  keys !! i = Some key → keys !! j = Some key →
  counter_at keys j = counter_at keys i + (j - i).
Proof.
  intros Hg Hij Hi Hj. apply counter_at_run; [done| |].
  - by eapply lookup_lt_Some.
  - intros k Hk. rewrite Hi. by apply (Hg i j k key).
Qed.

Lemma grouped_ids_NoDup documents idx :
  grouped (current_page_id idx <$> documents) →
  NoDup (md_id <$> generate_documents_with_metadata documents idx).
Proof.
  intros Hg. apply NoDup_alt. intros i j x.
  rewrite !list_lookup_fmap, !generate_lookup.
  destruct (documents !! i) as [di|] eqn:Hdi; [|done].
  destruct (documents !! j) as [dj|] eqn:Hdj; [|done].
  cbn. intros [= <-] [= Heq]. apply id_suffix_inj in Heq as [Hkey Hc].
  assert ((current_page_id idx <$> documents) !! i
          = Some (current_page_id idx di)) as Hi
    by (by rewrite list_lookup_fmap, Hdi).
  assert ((current_page_id idx <$> documents) !! j
          = Some (current_page_id idx di)) as Hj
    by (rewrite list_lookup_fmap, Hdj; cbn; congruence).
  destruct (decide (i ≤ j)).
  - rewrite (counter_at_grouped _ i j _ Hg) in Hc by done. lia.
  - rewrite (counter_at_grouped _ j i _ Hg) in Hc by (done || lia). lia.
Qed.







Lemma counter_at_first keys i key :
  keys !! i = Some key →
  ∃ f, f ≤ i ∧ keys !! f = Some key ∧ counter_at keys f = 0.
Proof.
  induction i as [|i IH]; intros Hi.
  - exists 0. done.
  - destruct (decide (keys !! S i = keys !! i)) as [Heq|Hne].
    + destruct IH as (f & Hf & Hkey & Hc); [congruence|].
      exists f. split; [lia|done].
    + exists (S i). split; [lia|]. split; [done|].
      cbn. by rewrite decide_False.
Qed.

Lemma counter_at_restart keys k j key :
  k < j → keys !! k ≠ Some key → keys !! j = Some key →
  ∃ m, k < m ≤ j ∧ keys !! m = Some key ∧ counter_at keys m = 0.
Proof.
  intros Hkj Hk. induction j as [|j IH]; intros Hj; [lia|].
  destruct (decide (keys !! j = Some key)) as [Heq|Hne].
  - destruct (decide (k = j)) as [->|]; [done|].
    destruct IH as (m & Hm & Hkey & Hc); [lia|done|].
    exists m. split; [lia|done].
  - exists (S j). split; [lia|]. split; [done|].
    cbn. rewrite decide_False; [done|congruence].
Qed.

(** The ids of a pass are pairwise distinct exactly when equal keys
    stand side by side in the sequence: a key that comes back after
    another key makes the counter start again at zero, and the id of
    its first chunk is given a second time. *)
Theorem pass_ids_distinct_iff_grouped (documents : list Document)
    (idx : option Z) :
  NoDup (md_id <$> generate_documents_with_metadata documents idx)
  ↔ grouped (current_page_id idx <$> documents).
Proof.
  split; [|apply grouped_ids_NoDup].
  intros Hnd i j k key Hk Hi Hj.
  destruct (decide ((current_page_id idx <$> documents) !! k = Some key))
    as [|Hne]; [done|exfalso].
  assert (i < k < j) as Hlt.
  { destruct (decide (i = k)) as [->|]; [done|].
    destruct (decide (k = j)) as [->|]; [done|]. lia. }
  destruct (counter_at_first _ i key Hi) as (f & Hf & Hkf & Hcf).
  destruct (counter_at_restart _ k j key (proj2 Hlt) Hne Hj)
    as (m & Hm & Hkm & Hcm).
  assert (∀ n, (current_page_id idx <$> documents) !! n = Some key →
            counter_at (current_page_id idx <$> documents) n = 0 →
            (md_id <$> generate_documents_with_metadata documents idx) !! n
            = Some (Some (key +:+ ":" +:+ pretty 0))) as Hid.
  { intros n Hn Hc. rewrite list_lookup_fmap, generate_lookup.
    rewrite list_lookup_fmap in Hn.
    destruct (documents !! n) as [d|]; [|done].
    injection Hn as <-. cbn. by rewrite Hc. }
  pose proof (proj1 (NoDup_alt _) Hnd f m _ (Hid f Hkf Hcf) (Hid m Hkm Hcm)).
  lia.
Qed.


(** A pass without a split index and a pass with one never give the
    same id to chunks of one source: a parent chunk and a child chunk
    of the same file have different ids. *)
Theorem parent_and_child_ids_differ (documents : list Document)
    (parent_chunk_size child_chunk_size : Z) (p c : Document) :
  p ∈ (split_documents documents parent_chunk_size child_chunk_size).1 →
  c ∈ (split_documents documents parent_chunk_size child_chunk_size).2 →
  md_source p = md_source c →
  md_id p ≠ md_id c.
Proof.
  intros (i & Hp)%list_elem_of_lookup_1
         (idx & p' & _ & Hc)%children_elem Hsrc.
  unfold split_documents in Hp. cbn [fst] in Hp.
  rewrite generate_lookup in Hp.
  destruct (splitter_split_documents _ _ !! i) as [raw|]; [|done].
  injection Hp as <-.
  apply child_documents_elem in Hc as (j & t & _ & ->).
  cbn in *. intros [= Heq].
  apply id_suffix_inj in Heq as [Hkey _].
  unfold current_page_id in Hkey. cbn zeta in Hkey.
  apply colon_split_r in Hkey as [Hkey _];
    auto using colon_free_pretty_Z.
  rewrite Hsrc in Hkey.
  rewrite <-(string_app_nil_r (fmt_source (md_source p'))) in Hkey at 1.
  by apply (inj (String.append _)) in Hkey.
Qed.

(** ** More on the writer *)

Lemma upsert_lookup (m : gmap string Document) l k :
  foldl upsert_chunk m l !! k
  = match last (filter (λ d, md_id d = Some k) l) with
    | Some d => Some d
    | None => m !! k
    end.
Proof.
  induction l as [|x l IH] using rev_ind; [done|].
  rewrite foldl_app, filter_app. cbn [foldl]. unfold upsert_chunk at 1.
  rewrite filter_cons, filter_nil.
  destruct (decide (md_id x = Some k)) as [Hx|Hx].
  - rewrite last_snoc, Hx. apply lookup_insert_eq.
  - rewrite app_nil_r, <-IH. destruct (md_id x) as [id|]; [|done].
    apply lookup_insert_ne. congruence.
Qed.

Lemma upsert_twice (m : gmap string Document) l :
  foldl upsert_chunk (foldl upsert_chunk m l) l = foldl upsert_chunk m l.
Proof.
  apply map_eq. intros k. rewrite !upsert_lookup.
  by destruct (last _).
Qed.

Lemma write_batches_inr_trace batches w w' :
  for_each write_batch batches w = (w', inr ()) →
  trace w' = trace w ++ (EvUpsert <$> batches)
  ∧ document_hashes w' = document_hashes w.
Proof.
  revert w. induction batches as [|b batches IH]; intros w.
  - cbn. intros [= <-]. by rewrite app_nil_r.
  - cbn [for_each]. intros ([] & w1 & Hb & Hrest)%bind_inr.
    unfold write_batch in Hb.
    destruct (metadata_ids b) as [ids|] eqn:Hids; [|done].
    unfold vectorstore_add_documents in Hb.
    destruct (upsert_ok (vectorstore w) b); [|done].
    injection Hb as <-. destruct (IH _ Hrest) as [Ht Hh]. cbn in *.
    by rewrite Ht, <-app_assoc.
Qed.

Lemma optional_write_inr_trace documents n w w' :
  (if truthy documents
   then add_or_update_documents_to_vectorstore documents n
   else mret ()) w = (w', inr ()) →
  trace w' = trace w ++ (EvUpsert <$> batches_of documents n)
  ∧ document_hashes w' = document_hashes w.
Proof.
  unfold batches_of. destruct documents as [|d documents]; cbn [truthy].
  - intros [= <-]. unfold chunk_list. case_decide.
    + cbn. by rewrite app_nil_r.
    + unfold py_range. cbn [length].
      replace ((0 + n - 1) `div` n) with 0
        by (symmetry; apply Nat.div_small; lia).
      cbn. by rewrite app_nil_r.
  - unfold add_or_update_documents_to_vectorstore.
    destruct (chunk_list (d :: documents) n); [|done].
    apply write_batches_inr_trace.
Qed.

(** A successful call of [add_documents_to_store] leaves exactly the
    delta: the vector index is the old one with the candidates the diff
    classified as new, then those it classified as updated, upserted in
    that order, batch by batch; candidates classified as unchanged are
    not written; the document store receives the parents when there are
    children and is left alone otherwise; the digest table is not
    touched. *)
Theorem add_documents_to_store_writes_delta
    (documents sub_documents : list Document) (n : nat) (w w' : World) :
  let candidates :=
    if truthy sub_documents then sub_documents else documents in
  let to_insert :=
    of_class New (dom (vectorstore w)) (vectorstore w) candidates in
  let to_update :=
    of_class Updated (dom (vectorstore w)) (vectorstore w) candidates in
  Forall carries_id_hash candidates →
  add_documents_to_store documents sub_documents n w = (w', inr ()) →
  vectorstore w'
  = foldl upsert_chunk (vectorstore w) (to_insert ++ to_update)
  ∧ docstore w'
    = (if truthy sub_documents
       then foldl upsert_chunk (docstore w) documents
       else docstore w)
  ∧ document_hashes w' = document_hashes w
  ∧ trace w'
    = trace w
      ++ (if truthy sub_documents
          then [EvDocstoreSet (default [] (metadata_ids documents))]
          else [])
      ++ [EvVsIds]
      ++ (EvUpsert <$> batches_of to_insert n)
      ++ (EvUpsert <$> batches_of to_update n).
Proof.
  intros candidates to_insert to_update Hcarry Hrun.
  unfold add_documents_to_store in Hrun.
  apply bind_inr in Hrun as ([] & w1 & Hstore & Hrun).
  apply bind_inr in Hrun as ([existing_ids vs] & w2 & Hids & Hrun).
  apply bind_inr in Hrun as ([new_chunks updated_chunks] & w3 & Hdiff & Hrun).
  apply bind_inr in Hrun as ([] & w4 & Hnew & Hupd).
  pose proof (optional_write_inr_trace _ _ _ _ Hnew) as [Ht4 Hh4].
  pose proof (optional_write_inr_trace _ _ _ _ Hupd) as [Ht' Hh'].
  apply optional_write_inr in Hnew as [Hvs4 Hds4].
  apply optional_write_inr in Hupd as [Hvs' Hds'].
  assert (vectorstore w1 = vectorstore w
          ∧ docstore w1
            = (if truthy sub_documents
               then foldl upsert_chunk (docstore w) documents
               else docstore w)
          ∧ document_hashes w1 = document_hashes w
          ∧ trace w1
            = trace w
              ++ (if truthy sub_documents
                  then [EvDocstoreSet (default [] (metadata_ids documents))]
                  else [])) as (Hvs1 & Hds1 & Hh1 & Ht1).
  { destruct (truthy sub_documents).
    - unfold docstore_mset in Hstore.
      destruct (metadata_ids documents) as [ids|] eqn:Hmd; [|done].
      injection Hstore as <-. cbn. split_and!; try done.
      by apply mset_zip_ids.
    - injection Hstore as <-. by rewrite app_nil_r. }
  injection Hids as <- <- <-. unfold lift in Hdiff.
  injection Hdiff as <- Hdiff. cbn in *.
  unfold get_documents_to_add_or_update in Hdiff.
  fold candidates in Hdiff.
  rewrite diff_loop_filters in Hdiff;
    [|done|by intros id ?%elem_of_dom].
  injection Hdiff as <- <-. rewrite Hvs1 in *.
  split_and!.
  - by rewrite Hvs', Hvs4, foldl_app.
  - by rewrite Hds', Hds4.
  - by rewrite Hh', Hh4.
  - rewrite Ht', Ht4, Ht1. by rewrite <-!app_assoc.
Qed.

Lemma classify_unchanged_iff existing_ids vs c id h :
  md_id c = Some id → md_hash c = Some h →
  (classify existing_ids vs c = Unchanged
   ↔ id ∈ existing_ids ∧ vs !! id ≫= md_hash = Some h).
Proof.
  intros Hid Hh. unfold classify. rewrite Hid, Hh.
  repeat case_decide; split; try done; intros [? ?]; done.
Qed.

(** Running [add_documents_to_store] a second time on the same chunks
    writes nothing: when the first call succeeded and no two different
    candidates share an id, the second call succeeds whatever the
    index would accept, every candidate is classified as unchanged, no
    batch is upserted, and both stores stay as the first call left
    them. *)
Theorem add_documents_to_store_twice
    (documents sub_documents : list Document) (n : nat) (w w' : World) :
  let candidates :=
    if truthy sub_documents then sub_documents else documents in
  Forall carries_id_hash candidates →
  (∀ c1 c2, c1 ∈ candidates → c2 ∈ candidates →
            md_id c1 = md_id c2 → c1 = c2) →
  add_documents_to_store documents sub_documents n w = (w', inr ()) →
  Forall (λ c, classify (dom (vectorstore w')) (vectorstore w') c
               = Unchanged) candidates
  ∧ add_documents_to_store documents sub_documents n w'
    = (mkWorld (vectorstore w') (docstore w') (document_hashes w')
               (trace w'
                ++ (if truthy sub_documents
                    then [EvDocstoreSet (default [] (metadata_ids documents))]
                    else [])
                ++ [EvVsIds]),
       inr ()).
Proof.
  intros candidates Hcarry Hfun Hrun.
  pose proof (add_documents_to_store_writes_delta
                documents sub_documents n w w' Hcarry Hrun)
    as (Hvs & Hds & Hh & Ht).
  fold candidates in Hvs.
  assert (Forall (λ c, classify (dom (vectorstore w')) (vectorstore w') c
                       = Unchanged) candidates) as Hunch.
  { apply Forall_forall. intros c Hc.
    destruct (proj1 (Forall_forall _ _) Hcarry c Hc) as [[id Hid] [h Hh']].
    apply (classify_unchanged_iff _ _ _ id h); [done|done|].
    assert (vectorstore w' !! id ≫= md_hash = Some h) as Hlook.
    { rewrite Hvs.
      destruct (classify (dom (vectorstore w)) (vectorstore w) c) eqn:Hcl.
      - rewrite (upsert_lookup_functional _ _ c); [by cbn| |
          apply elem_of_app; left; by apply list_elem_of_filter|done].
        intros c1 c2 [[_ H1]%list_elem_of_filter|[_ H1]%list_elem_of_filter]%elem_of_app
                     [[_ H2]%list_elem_of_filter|[_ H2]%list_elem_of_filter]%elem_of_app;
          by apply Hfun.
      - rewrite (upsert_lookup_functional _ _ c); [by cbn| |
          apply elem_of_app; right; by apply list_elem_of_filter|done].
        intros c1 c2 [[_ H1]%list_elem_of_filter|[_ H1]%list_elem_of_filter]%elem_of_app
                     [[_ H2]%list_elem_of_filter|[_ H2]%list_elem_of_filter]%elem_of_app;
          by apply Hfun.
      - rewrite upsert_lookup_other.
        + by apply (classify_unchanged_iff _ _ _ id h) in Hcl as [_ ?].
        + intros d [[Hd Hin]%list_elem_of_filter
                   |[Hd Hin]%list_elem_of_filter]%elem_of_app Hdid;
            rewrite (Hfun d c Hin Hc) in Hd by congruence; congruence. }
    split; [|done]. apply elem_of_dom.
    destruct (vectorstore w' !! id); [done|by cbn in Hlook]. }
  split; [done|].
  unfold add_documents_to_store. rewrite bind_run.
  assert ((if truthy sub_documents then docstore_mset documents else mret ())
            w'
          = (mkWorld (vectorstore w') (docstore w') (document_hashes w')
               (trace w'
                ++ (if truthy sub_documents
                    then [EvDocstoreSet (default [] (metadata_ids documents))]
                    else [])), inr ())) as ->.
  { unfold add_documents_to_store in Hrun.
    apply bind_inr in Hrun as ([] & w1 & Hstore & _).
    destruct (truthy sub_documents).
    - unfold docstore_mset in *.
      destruct (metadata_ids documents) as [ids|] eqn:Hmd; [|done].
      cbn. do 2 f_equal. rewrite mset_zip_ids by done.
      rewrite Hds. by rewrite upsert_twice.
    - cbn. by rewrite app_nil_r, World_eta. }
  rewrite bind_run. cbn [vectorstore_ids vectorstore docstore
                           document_hashes trace].
  rewrite bind_run. unfold lift, get_documents_to_add_or_update.
  fold candidates. rewrite diff_loop_filters;
    [|done|by intros id ?%elem_of_dom].
  rewrite !of_class_none by done. cbn. by rewrite <-app_assoc.
Qed.

(** ** More on the diff and on batching *)



(** The edges of batching: an empty list gives no batch, a list that
    fits into one batch gives that batch alone, the number of batches
    is the length divided by the batch size and rounded up, and a batch
    size of zero is an error, which the writer raises before it
    touches the index. *)
Theorem chunk_list_edges (documents : list Document) (n : nat) (w : World) :
  1 ≤ n →
  chunk_list ([] : list Document) n = Some []
  ∧ (1 ≤ length documents ≤ n → chunk_list documents n = Some [documents])
  ∧ (∃ batches, chunk_list documents n = Some batches
       ∧ length batches = (length documents + n - 1) `div` n)
  ∧ chunk_list documents 0 = None
  ∧ add_or_update_documents_to_vectorstore documents 0 w
    = (w, inl ValueError).
Proof.
  intros Hn. unfold chunk_list. rewrite !decide_False by lia.
  split_and!.
  - unfold py_range. cbn [length].
    replace ((0 + n - 1) `div` n) with 0
      by (symmetry; apply Nat.div_small; lia).
    done.
  - intros [H1 H2]. unfold py_range.
    replace ((length documents + n - 1) `div` n) with 1.
    + cbn. by rewrite drop_0, take_ge by lia.
    + apply (Nat.div_unique _ _ _ (length documents - 1)); lia.
  - eexists. split; [done|].
    unfold py_range. by rewrite !length_fmap, length_seq.
  - done.
  - done.
Qed.

(** ** More on the stores *)

Lemma mset_dom {V} (db : gmap string V) kvs :
  dom db ⊆ dom (Sqlitestore.mset db kvs).
Proof.
  unfold Sqlitestore.mset. revert db.
  induction kvs as [|[k v] kvs IH]; intros db; [done|].
  cbn. etrans; [|apply IH]. apply dom_insert_subseteq.
Qed.

Lemma grows_refl w : grows w w.
Proof. done. Qed.

Lemma grows_bind {A B} (m : M A) (f : A → M B) :
  (∀ w, grows w (m w).1) → (∀ a w, grows w (f a w).1) →
  ∀ w, grows w ((m ≫= f) w).1.
Proof.
  intros Hm Hf w. rewrite bind_run. specialize (Hm w).
  destruct (m w) as [w1 [e|a]]; [done|].
  specialize (Hf a w1). destruct Hm as (?&?&?), Hf as (?&?&?).
  split_and!; by etrans.
Qed.

Lemma grows_for_each {A} (body : A → M unit) l :
  (∀ x w, grows w (body x w).1) → ∀ w, grows w (for_each body l w).1.
Proof.
  intros Hbody. induction l as [|x l IH]; [done|].
  cbn [for_each]. apply grows_bind; [apply Hbody|]. intros _. apply IH.
Qed.

Lemma grows_write_batch b w : grows w (write_batch b w).1.
Proof.
  unfold write_batch. destruct (metadata_ids b); [|done].
  unfold vectorstore_add_documents.
  destruct (upsert_ok (vectorstore w) b); [|done].
  split; [apply mset_dom|done].
Qed.

Lemma grows_add_or_update documents n w :
  grows w (add_or_update_documents_to_vectorstore documents n w).1.
Proof.
  unfold add_or_update_documents_to_vectorstore.
  destruct (chunk_list documents n); [|done].
  apply grows_for_each. intros b w1. apply grows_write_batch.
Qed.

Lemma grows_add_documents_to_store documents sub_documents n w :
  grows w (add_documents_to_store documents sub_documents n w).1.
Proof.
  revert w. unfold add_documents_to_store. apply grows_bind.
  { intros w. destruct (truthy sub_documents); [|done].
    unfold docstore_mset. destruct (metadata_ids documents); [|done].
    split; [done|]. split; [apply mset_dom|done]. }
  intros _. apply grows_bind; [done|]. intros [existing_ids vs].
  apply grows_bind; [done|]. intros [new_chunks updated_chunks].
  apply grows_bind.
  { intros w. destruct (truthy new_chunks);
      [apply grows_add_or_update|done]. }
  intros _ w. destruct (truthy updated_chunks);
    [apply grows_add_or_update|done].
Qed.

Lemma grows_process_file file_path w :
  grows w (process_file file_path w).1.
Proof.
  revert w. unfold process_file. apply grows_bind.
  { intros w. unfold get_file_hash. by destruct (file_sha1 file_path). }
  intros local_file_hash. apply grows_bind; [done|].
  intros document_hash w. case_decide; [done|]. revert w.
  apply grows_bind.
  { intros w. rewrite load_documents_run. done. }
  intros documents w.
  destruct (split_documents documents PARENT_CHUNK_SIZE CHILD_CHUNK_SIZE)
    as [docs sub_docs].
  revert w. apply grows_bind; [apply grows_add_documents_to_store|].
  intros _ w. unfold add_document_hash. revert w. apply grows_bind.
  { intros w. unfold get_file_hash. by destruct (file_sha1 file_path). }
  intros digest w. split; [done|]. split; [done|]. apply mset_dom.
Qed.

(** Ingestion never deletes: a run of [main] without [--reset],
    however it ends, leaves every chunk id in the vector index, every
    parent id in the document store and every path in the digest
    cache that was there before, also the chunks of pages that are no
    longer in their file. *)
Theorem ingestion_never_deletes (walk : list (string * list string))
    (w : World) :
  grows w (main false walk w).1.
Proof.
  revert w. unfold main. apply grows_bind; [done|]. intros _.
  apply grows_for_each. intros [root files]. apply grows_for_each.
  intros file w. unfold visit_file.
  destruct (is_pdf file); [apply grows_process_file|done].
Qed.

Lemma docstore_kept_bind {A B} (m : M A) (f : A → M B) :
  (∀ w, docstore (m w).1 = docstore w) →
  (∀ a w, docstore (f a w).1 = docstore w) →
  ∀ w, docstore ((m ≫= f) w).1 = docstore w.
Proof.
  intros Hm Hf w. rewrite bind_run. specialize (Hm w).
  destruct (m w) as [w1 [e|a]]; [done|]. by rewrite Hf.
Qed.

Lemma docstore_kept_add_or_update documents n w :
  docstore (add_or_update_documents_to_vectorstore documents n w).1
  = docstore w.
Proof.
  unfold add_or_update_documents_to_vectorstore.
  destruct (chunk_list documents n) as [batches|]; [|done].
  revert w. induction batches as [|b batches IH]; intros w; [done|].
  cbn [for_each]. revert w. apply docstore_kept_bind; [|intros _; apply IH].
  intros w. unfold write_batch. destruct (metadata_ids b); [|done].
  unfold vectorstore_add_documents.
  by destruct (upsert_ok (vectorstore w) b).
Qed.

Lemma docstore_kept_after_ids candidates n w :
  docstore
    (('(existing_ids, vs) ← vectorstore_ids ;
      '(new_chunks, updated_chunks) ←
        lift (get_documents_to_add_or_update candidates existing_ids vs) ;
      (if truthy new_chunks
       then add_or_update_documents_to_vectorstore new_chunks n
       else mret ()) ;;
      (if truthy updated_chunks
       then add_or_update_documents_to_vectorstore updated_chunks n
       else mret ())) w).1
  = docstore w.
Proof.
  revert w. apply docstore_kept_bind; [done|]. intros [existing_ids vs].
  apply docstore_kept_bind; [done|]. intros [new_chunks updated_chunks].
  apply docstore_kept_bind.
  { intros w. destruct (truthy new_chunks);
      [apply docstore_kept_add_or_update|done]. }
  intros _ w. destruct (truthy updated_chunks);
    [apply docstore_kept_add_or_update|done].
Qed.

(** The parents are stored first and stay stored: when there are
    children and every parent has an id, the document store holds all
    parents after the call, also when the diff or a batch write then
    fails; nothing rolls the document store back. *)
Theorem parents_stored_before_index (documents sub_documents : list Document)
    (n : nat) (w : World) :
  truthy sub_documents = true →
  Forall (λ d, is_Some (md_id d)) documents →
  docstore (add_documents_to_store documents sub_documents n w).1
  = foldl upsert_chunk (docstore w) documents
  ∧ ∀ p pid, p ∈ documents → md_id p = Some pid →
      is_Some (docstore (add_documents_to_store documents sub_documents
                           n w).1 !! pid).
Proof.
  intros Htruthy Hids.
  assert (docstore (add_documents_to_store documents sub_documents n w).1
          = foldl upsert_chunk (docstore w) documents) as Hds.
  { unfold add_documents_to_store. rewrite Htruthy, bind_run.
    unfold docstore_mset.
    destruct (mapM_is_Some_2 md_id documents) as [ids Hmd].
    { eapply Forall_impl; [exact Hids|]. done. }
    unfold metadata_ids. rewrite Hmd.
    rewrite docstore_kept_after_ids. cbn. by apply mset_zip_ids. }
  split; [done|]. intros p pid Hp Hpid. rewrite Hds.
  destruct (upsert_lookup_some (docstore w) documents p pid Hp Hpid)
    as (p' & -> & _). done.
Qed.


(** ** More on the digest cache *)

(** What [add_document_hash] records is what
    [get_document_hash_from_store] returns afterwards for that path;
    the digests of the other paths are as before. *)
Theorem recorded_digest_is_read_back (file_path : string) (w w' : World) :
  add_document_hash file_path w = (w', inr ()) →
  (∃ digest, file_sha1 file_path = Some digest
     ∧ get_document_hash_from_store file_path w' = (w', inr (Some digest)))
  ∧ ∀ other, other ≠ file_path →
      (get_document_hash_from_store other w').2
      = (get_document_hash_from_store other w).2.
Proof.
  unfold add_document_hash, get_file_hash. rewrite bind_run.
  destruct (file_sha1 file_path) as [digest|]; [|done].
  intros [= <-]. split.
  - exists digest. split; [done|]. rewrite get_document_hash_lookup.
    cbn. by rewrite lookup_insert_eq.
  - intros other Hne. rewrite !get_document_hash_lookup. cbn.
    by rewrite lookup_insert_ne.
Qed.

(** A file that was processed without error is skipped by the next
    run, as long as its bytes do not change: the second run only
    reports the skip and leaves the stores and the cache alone. *)
Theorem processed_file_is_skipped_next (file_path : string) (w w1 : World) :
  process_file file_path w = (w1, inr ()) →
  process_file file_path w1
  = (mkWorld (vectorstore w1) (docstore w1) (document_hashes w1)
             (trace w1 ++ [EvSkip file_path]), inr ()).
Proof.
  intros Hrun.
  destruct (file_sha1 file_path) as [digest|] eqn:Hsha.
  2:{ unfold process_file, get_file_hash in Hrun.
      by rewrite Hsha, bind_run in Hrun. }
  apply (process_file_skip _ digest); [done|].
  destruct (decide (document_hashes w !! file_path = Some digest))
    as [Hcached|Hcached].
  - rewrite (process_file_skip _ _ _ Hsha Hcached) in Hrun.
    by injection Hrun as <-.
  - rewrite (process_file_ingest _ _ _ Hsha Hcached) in Hrun.
    apply bind_inr in Hrun as (documents & wl & _ & Hrun).
    destruct (split_documents documents PARENT_CHUNK_SIZE CHILD_CHUNK_SIZE)
      as [docs sub_docs].
    apply bind_inr in Hrun as ([] & w2 & _ & Hrun).
    rewrite (add_document_hash_run _ _ _ Hsha) in Hrun.
    injection Hrun as <-. cbn. apply lookup_insert_eq.
Qed.

Lemma bind_trace_prefix {A B} (m : M A) (f : A → M B) :
  (∀ a w, ∃ evs, trace (f a w).1 = trace w ++ evs) →
  ∀ w, ∃ evs, trace ((m ≫= f) w).1 = trace (m w).1 ++ evs.
Proof.
  intros Hf w. rewrite bind_run. destruct (m w) as [w1 [e|a]].
  - exists []. by rewrite app_nil_r.
  - apply Hf.
Qed.

Lemma for_each_trace {A} (body : A → M unit) l :
  (∀ x w, ∃ evs, trace (body x w).1 = trace w ++ evs) →
  ∀ w, ∃ evs, trace (for_each body l w).1 = trace w ++ evs.
Proof.
  intros Hbody. induction l as [|x l IH]; intros w.
  - exists []. by rewrite app_nil_r.
  - cbn [for_each].
    destruct (bind_trace_prefix (body x) (λ _, for_each body l)
                (λ _, IH) w) as [evs2 H2].
    destruct (Hbody x w) as [evs1 H1].
    exists (evs1 ++ evs2). by rewrite H2, H1, <-app_assoc.
Qed.

Lemma visit_file_trace root file w :
  ∃ evs, trace (visit_file root file w).1 = trace w ++ evs.
Proof.
  unfold visit_file. destruct (is_pdf file).
  - destruct (finished_process_file (path_join root file) w)
      as [Hs|[_ (pre & p & h & _ & Ht)]]; [by apply steady_trace|eauto].
  - exists []. by rewrite app_nil_r.
Qed.

(** With [--reset] nothing is skipped at first: the digest cache is
    dropped with the document store, so a readable PDF file that comes
    first is loaded again even when its digest had been recorded. *)
Theorem reset_forces_reingestion (root file digest : string)
    (rest : list string) (walk : list (string * list string)) (w : World) :
  is_pdf file = true →
  file_sha1 (path_join root file) = Some digest →
  ∃ evs,
    trace (main true ((root, file :: rest) :: walk) w).1
    = trace w ++ EvClear :: EvLoad (path_join root file) :: evs.
Proof.
  intros Hpdf Hsha. unfold main. rewrite bind_run. cbn [clear_database].
  set (w0 := mkWorld ∅ ∅ ∅ (trace w ++ [EvClear])).
  cbn [for_each].
  destruct (unchanged_pdf_is_skipped root file digest w0 Hsha)
    as [_ Hvisit].
  destruct (Hvisit Hpdf) as [_ Hingest].
  destruct Hingest as (_ & evs & Ht & _); [done|].
  destruct (bind_trace_prefix
              (visit_file root file ;; for_each (visit_file root) rest)
              (λ _, for_each (λ '(root, files),
                      for_each (visit_file root) files) walk)) with
    (w := w0) as [evs3 H3].
  { intros _. apply for_each_trace. intros [root' files'].
    apply for_each_trace. intros file'. apply visit_file_trace. }
  destruct (bind_trace_prefix (visit_file root file)
              (λ _, for_each (visit_file root) rest)) with (w := w0)
    as [evs2 H2].
  { intros _. apply for_each_trace. intros file'. apply visit_file_trace. }
  exists (evs ++ evs2 ++ evs3).
  rewrite H3, H2, Ht. cbn. by rewrite <-!app_assoc.
Qed.

(** ** The extension test *)

Lemma string_length_app (a b : string) :
  String.length (a +:+ b) = String.length a + String.length b.
Proof.
  induction a as [|c a IH]; [done|].
  cbv [String.append]; fold String.append. cbn. by rewrite IH.
Qed.

Lemma lower_app (a b : string) : lower (a +:+ b) = lower a +:+ lower b.
Proof.
  induction a as [|c a IH]; [done|].
  cbv [String.append]; fold String.append. cbn. by rewrite IH.
Qed.

Lemma lower_length (s : string) : String.length (lower s) = String.length s.
Proof. induction s as [|c s IH]; [done|]. cbn. by rewrite IH. Qed.

Lemma lower_app_inv (s a b : string) :
  lower s = a +:+ b →
  ∃ s1 s2, s = s1 +:+ s2 ∧ lower s1 = a ∧ lower s2 = b.
Proof.
  revert s. induction a as [|c a IH]; intros s Hs.
  - exists "", s. done.
  - destruct s as [|cs s]; [done|].
    cbv [String.append] in Hs; fold String.append in Hs. cbn in Hs.
    injection Hs as Hc Hs. destruct (IH s Hs) as (s1 & s2 & -> & <- & <-).
    exists (String cs s1), s2. cbn. by rewrite Hc.
Qed.

Lemma substring_whole (b : string) : substring 0 (String.length b) b = b.
Proof. induction b as [|c b IH]; [done|]. cbn. by rewrite IH. Qed.

Lemma substring_app_r (a b : string) :
  substring (String.length a) (String.length b) (a +:+ b) = b.
Proof.
  induction a as [|c a IH]; [apply substring_whole|].
  cbv [String.append]; fold String.append. cbn. apply IH.
Qed.

Lemma substring_split (m : nat) (s : string) :
  m ≤ String.length s →
  s = substring 0 m s +:+ substring m (String.length s - m) s.
Proof.
  revert s. induction m as [|m IH]; intros s Hm.
  - cbn. rewrite Nat.sub_0_r, substring_whole. by destruct s.
  - destruct s as [|c s]; [cbn in Hm; lia|].
    cbn in *. cbv [String.append]; fold String.append.
    f_equal. apply IH. lia.
Qed.

Lemma endswith_app (s suffix : string) :
  endswith s suffix = true ↔ ∃ stem, s = stem +:+ suffix.
Proof.
  unfold endswith. split.
  - case_decide as Hle; [|done]. intros Hsub%bool_decide_eq_true.
    exists (substring 0 (String.length s - String.length suffix) s).
    pose proof (substring_split
                  (String.length s - String.length suffix) s) as Hsplit.
    replace (String.length s - (String.length s - String.length suffix))
      with (String.length suffix) in Hsplit by lia.
    rewrite Hsub in Hsplit. apply Hsplit. lia.
  - intros [stem ->]. rewrite string_length_app.
    rewrite decide_True by lia. apply bool_decide_eq_true.
    replace (String.length stem + String.length suffix
             - String.length suffix) with (String.length stem) by lia.
    apply substring_app_r.
Qed.

(** The extension test lets a file through exactly when its name ends
    in [.pdf] written in any mix of upper and lower case; the part
    before the extension does not matter, and may be empty. *)
Theorem is_pdf_iff_extension (file : string) :
  is_pdf file = true
  ↔ ∃ stem ext, file = stem +:+ ext ∧ lower ext = ".pdf".
Proof.
  unfold is_pdf. rewrite endswith_app. split.
  - intros [stem' Hlow]. apply lower_app_inv in Hlow
      as (stem & ext & -> & _ & Hext). eauto.
  - intros (stem & ext & -> & Hext). exists (lower stem).
    by rewrite lower_app, Hext.
Qed.

(** ** Retrieval for a query *)



End Engine.

(** ** The pipeline on the sample corpus *)

(** The diff on an index that holds two of three candidates, one of them
    with another hash. *)
Lemma diff_classifies_candidates_witness :
  let candidates :=
    [chunk "a:0:0" "h0"; chunk "a:0:1" "h1"; chunk "a:0:2" "h2"] in
  let index : gmap string Document :=
    {[ "a:0:0" := chunk "a:0:0" "h0"; "a:0:1" := chunk "a:0:1" "old" ]} in
  Forall carries_id_hash candidates
  ∧ (∀ id, id ∈ dom index → is_Some (index !! id))
  ∧ get_documents_to_add_or_update candidates (dom index) index
    = inr ([chunk "a:0:2" "h2"], [chunk "a:0:1" "h1"]).
Proof.
  intros candidates index.
  assert (Forall carries_id_hash candidates) as H1.
  { repeat constructor; by eexists. }
  assert (∀ id, id ∈ dom index → is_Some (index !! id)) as H2.
  { intros id Hid. by apply elem_of_dom. }
  split; [done|]. split; [done|].
  destruct (diff_classifies_candidates candidates (dom index) index H1 H2)
    as [Hrun _].
  rewrite Hrun. vm_compute. reflexivity.
Defined.

(** Three chunks of one page get three ids. *)
Lemma same_run_ids_distinct_witness :
  let out := generate_documents_with_metadata text_digest one_page None in
  ∃ di dj,
    0 < 2 ∧ out !! 0 = Some di ∧ out !! 2 = Some dj
    ∧ (∀ k dk, 0 ≤ k ≤ 2 → out !! k = Some dk →
         md_source dk = md_source di ∧ md_page dk = md_page di)
    ∧ md_id di ≠ md_id dj.
Proof.
  intros out.
  destruct (out !! 0) as [di|] eqn:Hi; [|by vm_compute in Hi].
  destruct (out !! 2) as [dj|] eqn:Hj; [|by vm_compute in Hj].
  assert (∀ k dk, 0 ≤ k ≤ 2 → out !! k = Some dk →
            md_source dk = md_source di ∧ md_page dk = md_page di) as Hrun.
  { vm_compute in Hi. injection Hi as <-.
    intros [|[|[|k]]] dk Hk; [| | |lia]; vm_compute; by intros [= <-]. }
  exists di, dj. split; [lia|]. split; [done|]. split; [done|].
  split; [done|].
  apply (same_run_ids_distinct text_digest one_page None 0 2 di dj);
    [lia|done|done|done].
Defined.

(** C3 fails: the first and the third chunk are on page 0 of the same
    file, a chunk of page 1 stands between them, and both get the id
    [docs/a.pdf:0:0]. *)
Lemma same_page_ids_collide :
  ¬ same_page_ids_distinct text_digest pages_0_1_0 None.
Proof.
  intros H.
  eapply (H 0 2); [lia|reflexivity|reflexivity|reflexivity|reflexivity|].
  vm_compute. reflexivity.
Qed.

(** A first ingestion of the report into empty stores. *)
Lemma ingest_links_children_to_parents_witness :
  let parents := (split_documents text_digest words_splitter report_v1 4 4).1 in
  let children := (split_documents text_digest words_splitter report_v1 4 4).2 in
  let res := add_documents_to_store accept_all parents children 500
               empty_world in
  (0 < 4)%Z
  ∧ add_documents_to_store accept_all parents children 500 empty_world
    = (res.1, inr ())
  ∧ ∀ c, c ∈ children →
      ∃ pid p, md_parent c = Some pid ∧ docstore res.1 !! pid = Some p
               ∧ md_id p = Some pid ∧ p ∈ parents.
Proof.
  intros parents children res.
  assert (add_documents_to_store accept_all parents children 500 empty_world
          = (res.1, inr ())) as Hrun by (vm_compute; reflexivity).
  split; [lia|]. split; [done|].
  apply (ingest_links_children_to_parents text_digest words_splitter
           accept_all report_v1 4 4 500 empty_world res.1); [lia|done].
Defined.

(** C4 fails on a second ingestion.  The first version of the report is
    ingested, then the second, where a paragraph moved to the next page.
    The third parent chunk keeps its position but gets the id
    [docs/a.pdf:1:1]; its only child keeps id and hash, is classified as
    unchanged and stays in the index with the parent id of the first
    run, so no child in the index names the parent that was just
    stored. *)
Lemma reingest_orphans_parent :
  let ingest sha1 loader :=
    process_file text_digest sha1 loader words_splitter accept_all 4 4
                 "docs/a.pdf" in
  let first := ingest sha1_v1 loader_v1 empty_world in
  let second := ingest sha1_v2 loader_v2 first.1 in
  let parents := (split_documents text_digest words_splitter report_v2 4 4).1 in
  let children := (split_documents text_digest words_splitter report_v2 4 4).2 in
  first.2 = inr () ∧ second.2 = inr ()
  ∧ ¬ parent_child_consistent parents children second.1.
Proof.
  intros ingest first second parents children.
  split; [by vm_compute|]. split; [by vm_compute|].
  intros [_ Hparents].
  destruct (Hparents
              (mkDocument "CCCC" (Some "docs/a.pdf") (Some 1%Z)
                 (Some "docs/a.pdf:1:1") (Some "#CCCC") None)
              "docs/a.pdf:1:1") as (cid & c & Hc & Hpar).
  { decide_closed. }
  { reflexivity. }
  assert (map_Forall (λ _ c, md_parent c ≠ Some "docs/a.pdf:1:1")
            (vectorstore second.1)) as Hall by decide_closed.
  by apply (Hall cid c Hc).
Qed.

(** Three batches of one chunk, the second of which the index refuses. *)
Lemma refused_batch_leaves_digest_unwritten_witness :
  let chunks := generate_documents_with_metadata text_digest one_page None in
  let batches := (λ c, [c]) <$> chunks in
  ∃ b,
    Forall (λ d, is_Some (md_id d)) chunks
    ∧ chunk_list chunks 1 = Some batches
    ∧ batches !! 1 = Some b
    ∧ (∀ i bi, i < 1 → batches !! i = Some bi →
         accept_first (apply_batches ∅ (take i batches)) bi = true)
    ∧ accept_first (apply_batches ∅ (take 1 batches)) b = false
    ∧ add_or_update_documents_to_vectorstore accept_first chunks 1 empty_world
      = (mkWorld (apply_batches ∅ (take 1 batches)) ∅ ∅
                 ([] ++ (EvUpsert <$> take 1 batches) ++ [EvUpsertFailed b]),
         inl StoreWriteError).
Proof.
  intros chunks batches.
  destruct (batches !! 1) as [b|] eqn:Hb; [|by vm_compute in Hb].
  exists b.
  assert (Forall (λ d, is_Some (md_id d)) chunks) as H1.
  { repeat constructor; by eexists. }
  assert (chunk_list chunks 1 = Some batches) as H2 by (by vm_compute).
  assert (∀ i bi, i < 1 → batches !! i = Some bi →
            accept_first (apply_batches ∅ (take i batches)) bi = true) as H3.
  { intros [|i] bi Hi; [|lia]. by vm_compute. }
  assert (accept_first (apply_batches ∅ (take 1 batches)) b = false) as H4.
  { vm_compute in Hb. injection Hb as <-. by vm_compute. }
  split; [exact H1|]. split; [exact H2|]. split; [reflexivity|].
  split; [exact H3|]. split; [exact H4|].
  exact (proj1 (refused_batch_leaves_digest_unwritten text_digest sha1_v1
                  loader_v1 words_splitter accept_first 4 4 chunks 1 1
                  batches b empty_world "docs/a.pdf" empty_world
                  H1 H2 Hb H3 H4)).
Defined.

(** The report is skipped once its digest is cached. *)
Lemma unchanged_pdf_is_skipped_witness :
  let w := mkWorld ∅ ∅ {[ "docs/a.pdf" := "v1" ]} [] in
  sha1_v1 (slash_join "docs" "a.pdf") = Some "v1"
  ∧ visit_file text_digest sha1_v1 loader_v1 words_splitter accept_all
      slash_join 4 4 "docs" "a.pdf" w
    = (mkWorld ∅ ∅ {[ "docs/a.pdf" := "v1" ]} [EvSkip "docs/a.pdf"], inr ()).
Proof.
  intros w.
  assert (sha1_v1 (slash_join "docs" "a.pdf") = Some "v1") as H1
    by reflexivity.
  split; [exact H1|].
  destruct (unchanged_pdf_is_skipped text_digest sha1_v1 loader_v1
              words_splitter accept_all slash_join 4 4 "docs" "a.pdf" "v1" w
              H1) as [_ Hpdf].
  destruct Hpdf as [Hskip _]; [vm_compute; reflexivity|].
  apply Hskip. vm_compute. reflexivity.
Defined.

(** C6 fails for a file that is not a PDF: its digest is not in the
    cache, and yet it is not loaded (nor is anything else done for
    it). *)
Lemma text_file_is_not_ingested :
  ¬ digest_decides_visit text_digest sha1_v1 corpus_loader words_splitter
      accept_all slash_join 4 4 "docs" "notes.txt" empty_world.
Proof.
  intros H. specialize (H "v1" eq_refl).
  assert (EvLoad "docs/notes.txt"
            ∉ trace (visit_file text_digest sha1_v1 corpus_loader
                       words_splitter accept_all slash_join 4 4
                       "docs" "notes.txt" empty_world).1) as Hno
    by decide_closed.
  apply Hno, H. by vm_compute.
Qed.

(** The corpus whose second file cannot be loaded: the run stops there. *)
Lemma load_failure_stops_run_witness :
  let run := main text_digest sha1_v1 corpus_loader words_splitter accept_all
               slash_join 4 4 false in
  let w1 := (run [("docs", ["a.pdf"])] empty_world).1 in
  run ([] ++ [("docs", ["a.pdf"])]) empty_world = (w1, inr ())
  ∧ is_pdf "b.pdf" = true
  ∧ sha1_v1 (slash_join "docs" "b.pdf") = Some "v1"
  ∧ document_hashes w1 !! slash_join "docs" "b.pdf" ≠ Some "v1"
  ∧ corpus_loader (slash_join "docs" "b.pdf") = None
  ∧ run ([] ++ ("docs", ["a.pdf"] ++ "b.pdf" :: ["c.pdf"]) :: []) empty_world
    = (mkWorld (vectorstore w1) (docstore w1) (document_hashes w1)
               (trace w1 ++ [EvLoad (slash_join "docs" "b.pdf")]),
       inl LoadError).
Proof.
  intros run w1.
  assert (run ([] ++ [("docs", ["a.pdf"])]) empty_world = (w1, inr ()))
    as H1 by (by vm_compute).
  assert (document_hashes w1 !! slash_join "docs" "b.pdf" ≠ Some "v1") as H2
    by (by vm_compute).
  assert (is_pdf "b.pdf" = true) as H3 by (vm_compute; reflexivity).
  assert (sha1_v1 (slash_join "docs" "b.pdf") = Some "v1") as H4
    by reflexivity.
  assert (corpus_loader (slash_join "docs" "b.pdf") = None) as H5
    by (vm_compute; reflexivity).
  split; [exact H1|]. split; [exact H3|]. split; [exact H4|].
  split; [exact H2|]. split; [exact H5|].
  exact (load_failure_stops_run text_digest sha1_v1 corpus_loader
           words_splitter accept_all slash_join 4 4 false [] []
           "docs" "b.pdf" ["a.pdf"] ["c.pdf"] "v1" empty_world w1
           H1 H3 H4 H2 H5).
Defined.

(** C7 fails: with a second file that cannot be loaded the run ends with
    the load error, and the third file, which loads, is never visited. *)
Lemma load_failure_aborts_corpus :
  let run := main text_digest sha1_v1 corpus_loader words_splitter accept_all
               slash_join 4 4 false in
  let walk := [("docs", ["a.pdf"; "b.pdf"; "c.pdf"])] in
  (run walk empty_world).2 = inl LoadError
  ∧ (EvLoad "docs/c.pdf" ∉ trace (run walk empty_world).1)
  ∧ (EvSkip "docs/c.pdf" ∉ trace (run walk empty_world).1)
  ∧ ¬ survives_load_failure text_digest sha1_v1 corpus_loader words_splitter
        accept_all slash_join 4 4 false walk empty_world.
Proof.
  intros run walk. split_and!.
  - by vm_compute.
  - decide_closed.
  - decide_closed.
  - intros [Hok _]. by vm_compute in Hok.
Qed.

(** Three chunks in batches of two. *)
Lemma chunk_list_batches_in_order_witness :
  let chunks := generate_documents_with_metadata text_digest one_page None in
  1 ≤ 2
  ∧ Forall (λ d, is_Some (md_id d)) chunks
  ∧ ∃ batches,
      chunk_list chunks 2 = Some batches
      ∧ concat batches = chunks
      ∧ (length <$> batches) = [2; 1].
Proof.
  intros chunks.
  assert (Forall (λ d, is_Some (md_id d)) chunks) as H1.
  { repeat constructor; by eexists. }
  split; [lia|]. split; [done|].
  destruct (chunk_list_batches_in_order accept_all chunks 2 empty_world)
    as (batches & Hcl & Hcat & _); [lia|done|].
  exists batches. split; [done|]. split; [done|].
  vm_compute in Hcl. injection Hcl as <-. reflexivity.
Defined.

(** The children of the second version of the report. *)
Lemma child_ids_embed_parent_position_witness :
  let parents := (split_documents text_digest words_splitter report_v2 4 4).1 in
  let children := (split_documents text_digest words_splitter report_v2 4 4).2 in
  (0 < 4)%Z
  ∧ children
    = mjoin (imap (child_documents text_digest words_splitter 4) parents)
  ∧ (md_id <$> children)
    = [Some "docs/a.pdf:0:0:0"; Some "docs/a.pdf:1:1:0";
       Some "docs/a.pdf:2:1:0"].
Proof.
  intros parents children. split; [lia|].
  destruct (child_ids_embed_parent_position text_digest words_splitter
              report_v2 4 4) as [Hchildren _]; [lia|].
  split; [done|]. by vm_compute.
Defined.

(** ** Further runs on the sample corpus *)

Lemma yield_keys_by_prefix_witness :
  let keys := ["docs/a.pdf"; "notes"; "docs/b.pdf"] in
  String.prefix "docs" "docs/a" = true
  ∧ Sqlitestore.yield_keys keys (Some "docs/a")
      `sublist_of` Sqlitestore.yield_keys keys (Some "docs").
Proof.
  intros keys. split; [reflexivity|].
  destruct (yield_keys_by_prefix keys "docs" "docs/a" eq_refl) as [H _].
  exact H.
Defined.


Lemma parent_and_child_ids_differ_witness :
  let p := mkDocument "AAAA" (Some "docs/a.pdf") (Some 0%Z)
             (Some "docs/a.pdf:0:0") (Some "#AAAA") None in
  let c := mkDocument "AAAA" (Some "docs/a.pdf") (Some 0%Z)
             (Some "docs/a.pdf:0:0:0") (Some "#AAAA")
             (Some "docs/a.pdf:0:0") in
  p ∈ (split_documents text_digest words_splitter report_v1 4 4).1
  ∧ c ∈ (split_documents text_digest words_splitter report_v1 4 4).2
  ∧ md_source p = md_source c
  ∧ md_id p ≠ md_id c.
Proof.
  intros p c.
  assert (p ∈ (split_documents text_digest words_splitter report_v1 4 4).1)
    as Hp by decide_closed.
  assert (c ∈ (split_documents text_digest words_splitter report_v1 4 4).2)
    as Hc by decide_closed.
  split; [exact Hp|]. split; [exact Hc|]. split; [reflexivity|].
  exact (parent_and_child_ids_differ text_digest words_splitter report_v1
           4 4 p c Hp Hc eq_refl).
Defined.

Lemma add_documents_to_store_writes_delta_witness :
  let parents := (split_documents text_digest words_splitter report_v1 4 4).1 in
  let children := (split_documents text_digest words_splitter report_v1 4 4).2 in
  let res := add_documents_to_store accept_all parents children 500
               empty_world in
  Forall carries_id_hash (if truthy children then children else parents)
  ∧ add_documents_to_store accept_all parents children 500 empty_world
    = (res.1, inr ())
  ∧ document_hashes res.1 = document_hashes empty_world.
Proof.
  intros parents children res.
  assert (Forall carries_id_hash
            (if truthy children then children else parents)) as H1
    by decide_closed.
  assert (add_documents_to_store accept_all parents children 500 empty_world
          = (res.1, inr ())) as H2 by (vm_compute; reflexivity).
  split; [exact H1|]. split; [exact H2|].
  destruct (add_documents_to_store_writes_delta accept_all parents children
              500 empty_world res.1 H1 H2) as (_ & _ & Hh & _).
  exact Hh.
Defined.

Lemma add_documents_to_store_twice_witness :
  let parents := (split_documents text_digest words_splitter report_v1 4 4).1 in
  let children := (split_documents text_digest words_splitter report_v1 4 4).2 in
  let candidates := if truthy children then children else parents in
  let res := add_documents_to_store accept_all parents children 500
               empty_world in
  Forall carries_id_hash candidates
  ∧ (∀ c1 c2, c1 ∈ candidates → c2 ∈ candidates →
              md_id c1 = md_id c2 → c1 = c2)
  ∧ add_documents_to_store accept_all parents children 500 empty_world
    = (res.1, inr ())
  ∧ Forall (λ c, classify (dom (vectorstore res.1)) (vectorstore res.1) c
                 = Unchanged) candidates.
Proof.
  intros parents children candidates res.
  assert (Forall carries_id_hash candidates) as H1 by decide_closed.
  assert (∀ c1 c2, c1 ∈ candidates → c2 ∈ candidates →
                   md_id c1 = md_id c2 → c1 = c2) as H2.
  { assert (Forall (λ c1, Forall (λ c2, md_id c1 = md_id c2 → c1 = c2)
                            candidates) candidates) as Hall
      by decide_closed.
    intros c1 c2 Hc1 Hc2.
    rewrite Forall_forall in Hall. specialize (Hall c1 Hc1).
    rewrite Forall_forall in Hall. exact (Hall c2 Hc2). }
  assert (add_documents_to_store accept_all parents children 500 empty_world
          = (res.1, inr ())) as H3 by (vm_compute; reflexivity).
  split; [exact H1|]. split; [exact H2|]. split; [exact H3|].
  destruct (add_documents_to_store_twice accept_all parents children 500
              empty_world res.1 H1 H2 H3) as [Hunchanged _].
  exact Hunchanged.
Defined.


Lemma chunk_list_edges_witness :
  let chunks := [chunk "a:0:0" "h0"; chunk "a:0:1" "h1"] in
  1 ≤ 2 ∧ chunk_list chunks 2 = Some [chunks].
Proof.
  intros chunks.
  assert (1 ≤ 2) as H by lia. split; [exact H|].
  destruct (chunk_list_edges accept_all chunks 2 empty_world H)
    as (_ & Hone & _).
  apply Hone. cbn. lia.
Defined.

Lemma parents_stored_before_index_witness :
  let parents := (split_documents text_digest words_splitter report_v1 4 4).1 in
  let children := (split_documents text_digest words_splitter report_v1 4 4).2 in
  let res := add_documents_to_store accept_first parents children 1
               empty_world in
  truthy children = true
  ∧ Forall (λ d, is_Some (md_id d)) parents
  ∧ res.2 = inl StoreWriteError
  ∧ docstore res.1 = foldl upsert_chunk ∅ parents.
Proof.
  intros parents children res.
  assert (truthy children = true) as H1 by (vm_compute; reflexivity).
  assert (Forall (λ d, is_Some (md_id d)) parents) as H2 by decide_closed.
  split; [exact H1|]. split; [exact H2|].
  split; [vm_compute; reflexivity|].
  destruct (parents_stored_before_index accept_first parents children 1
              empty_world H1 H2) as [Hds _].
  exact Hds.
Defined.


Lemma recorded_digest_is_read_back_witness :
  let w' := (add_document_hash sha1_v1 "docs/a.pdf" empty_world).1 in
  add_document_hash sha1_v1 "docs/a.pdf" empty_world = (w', inr ())
  ∧ ∃ digest,
      sha1_v1 "docs/a.pdf" = Some digest
      ∧ get_document_hash_from_store "docs/a.pdf" w'
        = (w', inr (Some digest)).
Proof.
  intros w'.
  assert (add_document_hash sha1_v1 "docs/a.pdf" empty_world = (w', inr ()))
    as H by (vm_compute; reflexivity).
  split; [exact H|].
  destruct (recorded_digest_is_read_back sha1_v1 "docs/a.pdf" empty_world
              w' H) as [Hread _].
  exact Hread.
Defined.

Lemma processed_file_is_skipped_next_witness :
  let run := process_file text_digest sha1_v1 loader_v1 words_splitter
               accept_all 4 4 "docs/a.pdf" in
  let w1 := (run empty_world).1 in
  run empty_world = (w1, inr ())
  ∧ run w1
    = (mkWorld (vectorstore w1) (docstore w1) (document_hashes w1)
               (trace w1 ++ [EvSkip "docs/a.pdf"]), inr ()).
Proof.
  intros run w1.
  assert (run empty_world = (w1, inr ())) as H by (vm_compute; reflexivity).
  split; [exact H|].
  exact (processed_file_is_skipped_next text_digest sha1_v1 loader_v1
           words_splitter accept_all 4 4 "docs/a.pdf" empty_world w1 H).
Defined.

Lemma reset_forces_reingestion_witness :
  let cached := mkWorld ∅ ∅ {[ "docs/a.pdf" := "v1" ]} [] in
  is_pdf "a.pdf" = true
  ∧ sha1_v1 (slash_join "docs" "a.pdf") = Some "v1"
  ∧ ∃ evs,
      trace (main text_digest sha1_v1 loader_v1 words_splitter accept_all
               slash_join 4 4 true [("docs", ["a.pdf"])] cached).1
      = trace cached ++ EvClear :: EvLoad (slash_join "docs" "a.pdf") :: evs.
Proof.
  intros cached.
  assert (is_pdf "a.pdf" = true) as H1 by (vm_compute; reflexivity).
  assert (sha1_v1 (slash_join "docs" "a.pdf") = Some "v1") as H2
    by reflexivity.
  split; [exact H1|]. split; [exact H2|].
  exact (reset_forces_reingestion text_digest sha1_v1 loader_v1
           words_splitter accept_all slash_join 4 4 "docs" "a.pdf" "v1"
           [] [] cached H1 H2).
Defined.

